(** * hitBar: a line-crossing counter (src/hitBar.py)

    Shallow embedding of the class [hitBar] as Python sees it when the module
    is loaded, i.e. the second [class hitBar] statement of the file (source
    lines 201-453), which rebinds the name of the first, truncated one.

    Conventions of the embedding.
    - float32 / double values are exact rationals ([Q]); rounding is not
      modelled.  Equality of coordinates is therefore [Qeq] ([==]).
    - [np.linalg.norm] and the drawing primitives of [cv2] are an interface
      ([Backend]); [cv2.pointPolygonTest] is embedded from the algorithm of
      OpenCV (contour of floats, [measureDist = False]).
    - a detection frame is the dict [detailedResult]; a key read with
      [.get(key, [])] is a list field (absent = empty), the key
      ["numProjection"], tested with [in], is an [option].
    - Python exceptions are results [Raise e]; the attributes assigned before
      the exception keep their new values, so the state is threaded through
      failures as well. *)

From Stdlib Require Import ZArith QArith Qround Lqa.
From stdpp Require Import base option list strings gmap.

Set Default Proof Using "Type".
Local Open Scope Z_scope.

(** ** Points and vectors *)

Definition Point2f : Type := Q * Q.

Definition px (p : Point2f) : Q := fst p.
Definition py (p : Point2f) : Q := snd p.

(** [a + b], [a - b] and [k * a] on numpy arrays of shape (2,). *)
Definition vadd (a b : Point2f) : Point2f := (px a + px b, py a + py b)%Q.
Definition vsub (a b : Point2f) : Point2f := (px a - px b, py a - py b)%Q.
Definition vscale (k : Q) (a : Point2f) : Point2f := (k * px a, k * py a)%Q.

(** Coordinate-wise equality of the rationals two points denote. *)
Definition pt_eq (p q : Point2f) : Prop := (px p == px q)%Q /\ (py p == py q)%Q.

Definition pt_eqb (p q : Point2f) : bool :=
  Qeq_bool (px p) (px q) && Qeq_bool (py p) (py q).

#[global] Instance pt_eq_dec (p q : Point2f) : Decision (pt_eq p q).
Proof.
  unfold pt_eq.
  destruct (Qeq_dec (px p) (px q)); [| right; tauto].
  destruct (Qeq_dec (py p) (py q)); [left | right]; tauto.
Defined.

Definition Qltb (x y : Q) : bool := negb (Qle_bool y x).

(** The C cast behind [np.int32]: truncation toward zero. *)
Definition int32 (q : Q) : Z := Z.quot (Qnum q) (Z.pos (Qden q)).

Definition ipoint : Type := Z * Z.
Definition to_int32 (realm : list Point2f) : list ipoint :=
  map (fun p => (int32 (px p), int32 (py p))) realm.

(** ** cv2.pointPolygonTest

    One turn of the loop [for (i = 0; i < total; i++)] over the edge
    [v0 -> v]: either the function returns 0 (the point is on the edge),
    or the loop goes on with the crossing counter updated. *)

Inductive edge_result := OnEdge | Next (counter : Z).

Definition edge_step (pt v0 v : Point2f) (counter : Z) : edge_result :=
  if (Qle_bool (py v0) (py pt) && Qle_bool (py v) (py pt))
     || (Qltb (py pt) (py v0) && Qltb (py pt) (py v))
     || (Qltb (px v0) (px pt) && Qltb (px v) (px pt))
  then
    if Qeq_bool (py pt) (py v)
       && (Qeq_bool (px pt) (px v)
           || (Qeq_bool (py pt) (py v0)
               && ((Qle_bool (px v0) (px pt) && Qle_bool (px pt) (px v))
                   || (Qle_bool (px v) (px pt) && Qle_bool (px pt) (px v0)))))
    then OnEdge
    else Next counter
  else
    let dist := ((py pt - py v0) * (px v - px v0)
                 - (px pt - px v0) * (py v - py v0))%Q in
    if Qeq_bool dist 0 then OnEdge
    else
      let dist := if Qltb (py v) (py v0) then (- dist)%Q else dist in
      Next (counter + (if Qltb 0 dist then 1 else 0)).

Fixpoint ppt_loop (pt v : Point2f) (cnt : list Point2f) (counter : Z) : Z :=
  match cnt with
  | [] => if Z.eqb (counter mod 2) 0 then -1 else 1
  | vi :: rest =>
      match edge_step pt v vi counter with
      | OnEdge => 0
      | Next counter' => ppt_loop pt vi rest counter'
      end
  end.

(** [cv2.pointPolygonTest(contour, pt, False)]: +1 inside, 0 on an edge,
    -1 outside.  [v] starts at the last vertex, [cntf[total-1]]. *)
Definition pointPolygonTest (contour : list Point2f) (pt : Point2f) : Z :=
  match last contour with
  | None => -1
  | Some v => ppt_loop pt v contour 0
  end.

(** ** Exceptions and results *)

Inductive exn := TypeError | IndexError | KeyError | AttributeError.

Inductive res (A : Type) :=
| Ok (a : A)
| Raise (e : exn).
Arguments Ok {A} a.
Arguments Raise {A} e.

(** ** Detection frames *)

Record frame := {
  labels : list string;
  IDs : list Z;
  midPoints : list Point2f;
  numProjection : option (gmap string (list (Z * Z)))
}.

(** One line written by [print] at a confirmed crossing: the values that the
    f-string formats (name, cat, numInCat, objID, count). *)
Record log_line := {
  log_name : string;
  log_cat : string;
  log_num : option Z;
  log_id : Z;
  log_count : Z
}.

Definition colour : Type := list Z.

(** ** The numeric and drawing libraries the class calls *)

Class Backend := {
  Img : Type;
  (** [np.linalg.norm] of the array [[x, y]] *)
  linalg_norm : Point2f -> Q;
  (** [cv2.fillPoly(img, [pts], color)], the image after the call *)
  fillPoly : Img -> list ipoint -> colour -> Img;
  (** [cv2.addWeighted(src1, alpha, src2, beta, gamma)] *)
  addWeighted : Img -> Q -> Img -> Q -> Q -> Img;
  (** [cv2.line(img, pt1, pt2, color, thickness)], the image after the call *)
  line : Img -> Point2f -> Point2f -> colour -> Z -> Img
}.

(** ** Python list indexing, [l[i]], negative indices included *)

Definition py_index {A} (l : list A) (i : Z) : option A :=
  if 0 <=? i then l !! Z.to_nat i
  else if 0 <=? Z.of_nat (length l) + i then l !! Z.to_nat (Z.of_nat (length l) + i)
  else None.

(** [[x[1] for x in l if x[0] == objID]] *)
Definition tags_of (l : list (Z * Z)) (objID : Z) : list Z :=
  (filter (λ x, x.1 = objID) l).*2.

Section Gate.
Context `{Backend}.

(** ** The attributes of a [hitBar] object *)

Record hitBar := {
  name : string;
  visualize : bool;
  imgSize : option (Z * Z);
  startPoint : Point2f;
  endPoint : Point2f;
  maxLength : Z;
  width : Q;
  direction : Point2f;
  realmIn : list Point2f;
  realmOut : list Point2f;
  history : list frame;
  Accumulator : gmap string Z;
  monitoredCatagories : gset string;
  imgOut : option Img;
  stdout : list log_line
}.

Definition set_direction (d : Point2f) (g : hitBar) : hitBar :=
  {| name := name g; visualize := visualize g; imgSize := imgSize g;
     startPoint := startPoint g; endPoint := endPoint g;
     maxLength := maxLength g; width := width g; direction := d;
     realmIn := realmIn g; realmOut := realmOut g; history := history g;
     Accumulator := Accumulator g;
     monitoredCatagories := monitoredCatagories g; imgOut := imgOut g;
     stdout := stdout g |}.

Definition set_realms (rin rout : list Point2f) (g : hitBar) : hitBar :=
  {| name := name g; visualize := visualize g; imgSize := imgSize g;
     startPoint := startPoint g; endPoint := endPoint g;
     maxLength := maxLength g; width := width g; direction := direction g;
     realmIn := rin; realmOut := rout; history := history g;
     Accumulator := Accumulator g;
     monitoredCatagories := monitoredCatagories g; imgOut := imgOut g;
     stdout := stdout g |}.

Definition set_history (h : list frame) (g : hitBar) : hitBar :=
  {| name := name g; visualize := visualize g; imgSize := imgSize g;
     startPoint := startPoint g; endPoint := endPoint g;
     maxLength := maxLength g; width := width g; direction := direction g;
     realmIn := realmIn g; realmOut := realmOut g; history := h;
     Accumulator := Accumulator g;
     monitoredCatagories := monitoredCatagories g; imgOut := imgOut g;
     stdout := stdout g |}.

Definition set_Accumulator (a : gmap string Z) (g : hitBar) : hitBar :=
  {| name := name g; visualize := visualize g; imgSize := imgSize g;
     startPoint := startPoint g; endPoint := endPoint g;
     maxLength := maxLength g; width := width g; direction := direction g;
     realmIn := realmIn g; realmOut := realmOut g; history := history g;
     Accumulator := a;
     monitoredCatagories := monitoredCatagories g; imgOut := imgOut g;
     stdout := stdout g |}.

Definition set_monitoredCatagories (m : gset string) (g : hitBar) : hitBar :=
  {| name := name g; visualize := visualize g; imgSize := imgSize g;
     startPoint := startPoint g; endPoint := endPoint g;
     maxLength := maxLength g; width := width g; direction := direction g;
     realmIn := realmIn g; realmOut := realmOut g; history := history g;
     Accumulator := Accumulator g;
     monitoredCatagories := m; imgOut := imgOut g;
     stdout := stdout g |}.

Definition set_imgOut (i : Img) (g : hitBar) : hitBar :=
  {| name := name g; visualize := visualize g; imgSize := imgSize g;
     startPoint := startPoint g; endPoint := endPoint g;
     maxLength := maxLength g; width := width g; direction := direction g;
     realmIn := realmIn g; realmOut := realmOut g; history := history g;
     Accumulator := Accumulator g;
     monitoredCatagories := monitoredCatagories g; imgOut := Some i;
     stdout := stdout g |}.

Definition print (l : log_line) (g : hitBar) : hitBar :=
  {| name := name g; visualize := visualize g; imgSize := imgSize g;
     startPoint := startPoint g; endPoint := endPoint g;
     maxLength := maxLength g; width := width g; direction := direction g;
     realmIn := realmIn g; realmOut := realmOut g; history := history g;
     Accumulator := Accumulator g;
     monitoredCatagories := monitoredCatagories g; imgOut := imgOut g;
     stdout := stdout g ++ [l] |}.

(** ** Methods as state transformers that may raise *)

Definition M (A : Type) : Type := hitBar -> res A * hitBar.

Definition ret {A} (a : A) : M A := fun g => (Ok a, g).
Definition raise {A} (e : exn) : M A := fun g => (Raise e, g).
Definition bind {A B} (m : M A) (k : A -> M B) : M B :=
  fun g => match m g with
           | (Ok a, g') => k a g'
           | (Raise e, g') => (Raise e, g')
           end.
Definition self : M hitBar := fun g => (Ok g, g).
Definition assign (f : hitBar -> hitBar) : M unit := fun g => (Ok tt, f g).

(** [l[i]] for an index [i >= 0]; out of range raises [IndexError]. *)
Definition subscript {A} (l : list A) (i : nat) : M A :=
  match l !! i with
  | Some a => ret a
  | None => raise IndexError
  end.

End Gate.

Arguments hitBar {_}.
Arguments M {_} A.

Notation "'let*' x ':=' m 'in' k" := (bind m (fun x => k))
  (at level 10, x name, m at level 100, k at level 200).
Notation "m ;;; k" := (bind m (fun _ => k))
  (at level 100, k at level 200).

Section Methods.
Context `{Backend}.

(** ** _inRealm *)

Definition _inRealm (point : Point2f) (realm : list Point2f) : bool :=
  let inside := pointPolygonTest realm point in
  0 <=? inside.

(** ** _monitor

    [list(set(self.monitoredCatagories + categories))] is a duplicate-free
    list in an order Python does not fix; the class only ever asks [in] of
    it, so it is the finite set of its elements. *)

Fixpoint monitor_loop (categories : list string) (acc : gmap string Z)
  : gmap string Z :=
  match categories with
  | [] => acc
  | cat :: rest =>
      monitor_loop rest
        (if bool_decide (cat ∈ dom acc) then acc else <[cat := 0]> acc)
  end.

Definition _monitor (categories : list string) (g : hitBar) : hitBar :=
  let g := set_Accumulator (monitor_loop categories (Accumulator g)) g in
  set_monitoredCatagories
    (monitoredCatagories g ∪ list_to_set categories) g.

(** ** __init__ *)

Definition degenerate_eps : Q := 1 # 1000000.

Definition __init__ (imgSize : option (Z * Z))
    (startPoint endPoint : option Point2f) (name : string)
    (monitor : option (list string)) (width : Q) (maxLength : Z)
    (visualize : bool) : res hitBar :=
  let ends :=
    match startPoint, endPoint with
    | Some s, Some e => Ok (s, e)
    | _, _ =>
        match imgSize with
        | None => Raise TypeError
        | Some (h, w) =>
            let mid_row := h / 2 in
            Ok ((inject_Z 0, inject_Z mid_row), (inject_Z w, inject_Z mid_row))
        end
    end in
  match ends with
  | Raise e => Raise e
  | Ok (s, e) =>
      let dx := (px e - px s)%Q in
      let dy := (py e - py s)%Q in
      let n : Point2f := ((- dy)%Q, dx) in
      let norm_n := linalg_norm n in
      let '(d, rin, rout) :=
        if Qltb norm_n degenerate_eps then
          ((inject_Z 0, inject_Z 0), [s; s; s; s], [e; e; e; e])
        else
          let d : Point2f := ((px n / norm_n)%Q, (py n / norm_n)%Q) in
          let offsetIn := vscale (- width) d in
          let offsetOut := vscale width d in
          let AIn := vadd s offsetIn in
          let BIn := vadd e offsetIn in
          let AOut := vadd s offsetOut in
          let BOut := vadd e offsetOut in
          (d, [s; e; BIn; AIn], [s; e; BOut; AOut]) in
      let g :=
        {| name := name; visualize := visualize; imgSize := imgSize;
           startPoint := s; endPoint := e; maxLength := maxLength;
           width := width; direction := d; realmIn := rin; realmOut := rout;
           history := []; Accumulator := ∅; monitoredCatagories := ∅;
           imgOut := None; stdout := [] |} in
      match monitor with
      | Some (c :: cs) => Ok (_monitor (c :: cs) g)
      | _ => Ok g
      end
  end.

(** ** _hasIn *)

(** The test of lines 427-430 that sends the loop to [continue]. *)
Definition tag_rejected (pastFrame : frame) (cat : string) (objID : Z)
    (numInCat : option Z) : bool :=
  match numProjection pastFrame, numInCat with
  | Some np, Some num =>
      match tags_of (default [] (np !! cat)) objID with
      | [] => true
      | a :: _ => bool_decide (a ≠ num)
      end
  | _, _ => false
  end.

(** [ids[i] if len(ids) == len(labs) else i] *)
Definition resolve_id (ids : list Z) (labs : list string) (i : nat) : M Z :=
  if bool_decide (length ids = length labs) then subscript ids i
  else ret (Z.of_nat i).

Fixpoint hasIn_loop (pt : Point2f) (cat : string) (objID : Z)
    (numInCat : option Z) (pastFrame : frame) (i : nat) (labs : list string)
  : M bool :=
  match labs with
  | [] => ret false
  | lb :: rest =>
      let continue :=
        hasIn_loop pt cat objID numInCat pastFrame (S i) rest in
      if bool_decide (lb = cat) then
        let* checkID := resolve_id (IDs pastFrame) (labels pastFrame) i in
        if bool_decide (checkID = objID) then
          if tag_rejected pastFrame cat objID numInCat then continue
          else
            let* oldPt := subscript (midPoints pastFrame) i in
            let* g := self in
            if _inRealm oldPt (realmIn g) then
              assign (set_direction
                        (vscale (1 # 2)
                           (vadd (direction g) (vsub pt oldPt)))) ;;;
              ret true
            else continue
        else continue
      else continue
  end.

Definition _hasIn (pt : Point2f) (cat : string) (objID : Z)
    (numInCat : option Z) : M bool :=
  let* g := self in
  match py_index (history g) (-2) with
  | None => ret false
  | Some pastFrame =>
      if bool_decide (cat ∈ labels pastFrame) then
        hasIn_loop pt cat objID numInCat pastFrame 0 (labels pastFrame)
      else ret false
  end.

(** ** update *)

(** Lines 387-391: the tag of the entry in the current frame. *)
Definition resolve_numInCat (detailedResult : frame) (cat : string)
    (objID : Z) : option Z :=
  match numProjection detailedResult with
  | Some np =>
      match np !! cat with
      | Some l => head (tags_of l objID)
      | None => None
      end
  | None => None
  end.

(** [self.Accumulator[cat] += 1] *)
Definition Accumulator_incr (cat : string) : M Z :=
  let* g := self in
  match Accumulator g !! cat with
  | None => raise KeyError
  | Some c =>
      assign (set_Accumulator (<[cat := c + 1]> (Accumulator g))) ;;;
      ret (c + 1)
  end.

(** The body of [for idx, pt in enumerate(midPoints)]; [continue] and the
    end of the body both return to the loop. *)
Definition update_body (detailedResult : frame) (idx : nat) (pt : Point2f)
  : M unit :=
  let* cat := subscript (labels detailedResult) idx in
  let* g := self in
  if bool_decide (cat ∈ monitoredCatagories g) then
    let* objID :=
      resolve_id (IDs detailedResult) (labels detailedResult) idx in
    let numInCat := resolve_numInCat detailedResult cat objID in
    if _inRealm pt (realmOut g) then
      let* crossed := _hasIn pt cat objID numInCat in
      if (crossed : bool) then
        let* count := Accumulator_incr cat in
        assign (print {| log_name := name g; log_cat := cat;
                         log_num := numInCat; log_id := objID;
                         log_count := count |})
      else ret tt
    else ret tt
  else ret tt.

Fixpoint update_loop (detailedResult : frame) (idx : nat)
    (midPoints : list Point2f) : M unit :=
  match midPoints with
  | [] => ret tt
  | pt :: rest =>
      update_body detailedResult idx pt ;;;
      update_loop detailedResult (S idx) rest
  end.

(** Lines 343-356: the realms as [update] recomputes them. *)
Definition recompute_realms (g : hitBar) : list Point2f * list Point2f :=
  let A := startPoint g in
  let B := endPoint g in
  let offsetIn := vscale (- width g) (direction g) in
  let offsetOut := vscale (width g) (direction g) in
  let AIn := vadd A offsetIn in
  let BIn := vadd B offsetIn in
  let AOut := vadd A offsetOut in
  let BOut := vadd B offsetOut in
  ([AIn; BIn; B; A], [AOut; BOut; B; A]).

(** Lines 358-375: the image [update] returns. *)
Definition render (g : hitBar) (img : Img) : Img :=
  let overlay := img in
  let ptsIn := to_int32 (realmIn g) in
  let ptsOut := to_int32 (realmOut g) in
  let overlay := fillPoly overlay ptsIn [0; 0; 255; 100] in
  let overlay := fillPoly overlay ptsOut [255; 0; 0; 100] in
  let alpha := (4 # 10)%Q in
  let imgOut := addWeighted overlay alpha img (1 - alpha)%Q (inject_Z 0) in
  if visualize g then
    line imgOut (startPoint g) (endPoint g) [0; 0; 255] 2
  else imgOut.

(** [self.history.pop(0)] *)
Definition history_pop0 : M unit :=
  let* g := self in
  match history g with
  | [] => raise IndexError
  | _ :: h => assign (set_history h)
  end.

(** Lines 339-375: what [update] does before it looks at the detections. *)
Definition update_prologue (img : Img) (detailedResult : frame) : M unit :=
  assign (fun g => set_history (history g ++ [detailedResult]) g) ;;;
  let* g := self in
  (if Z.of_nat (length (history g)) >? maxLength g
   then history_pop0 else ret tt) ;;;
  assign (fun g => let '(rin, rout) := recompute_realms g in
                   set_realms rin rout g) ;;;
  assign (fun g => set_imgOut (render g img) g).

Definition update (img : Img) (detailedResult : frame)
  : M (Img * gmap string Z) :=
  update_prologue img detailedResult ;;;
  update_loop detailedResult 0 (midPoints detailedResult) ;;;
  let* g := self in
  match imgOut g with
  | Some imgOut => ret (imgOut, Accumulator g)
  | None => raise AttributeError
  end.

(** The state after a call of [update], whether it returned or raised. *)
Definition after_update (g : hitBar) (call : Img * frame) : hitBar :=
  snd (update (fst call) (snd call) g).

(** A caller that feeds a stream of frames to one gate. *)
Definition run (g : hitBar) (calls : list (Img * frame)) : hitBar :=
  fold_left after_update calls g.

End Methods.

(** ** A raster instance of the libraries

    Images are rows of pixels of channel values.  [fillPoly] paints the
    pixels whose integer coordinates [pointPolygonTest] does not put outside
    the polygon, [line] those on the segment (thickness is not drawn),
    [addWeighted] rounds and saturates to 0..255, and the norm is the square
    root to 24 binary places, exact on squares of rationals.  It serves to
    run the class on concrete frames. *)

Module Raster.

Definition pixel : Type := list Z.
Definition image : Type := list (list pixel).

Definition paint (colour : colour) (p : pixel) : pixel :=
  firstn (length p) colour.

Definition map_pixels (f : Z -> Z -> pixel -> pixel) (img : image) : image :=
  imap (fun y row => imap (fun x p => f (Z.of_nat x) (Z.of_nat y) p) row) img.

Definition as_point (p : ipoint) : Point2f := (inject_Z p.1, inject_Z p.2).

Definition fill (img : image) (pts : list ipoint) (c : colour) : image :=
  map_pixels (fun x y p =>
    if 0 <=? pointPolygonTest (map as_point pts) (inject_Z x, inject_Z y)
    then paint c p else p) img.

Definition saturate (q : Q) : Z := Z.max 0 (Z.min 255 (Qfloor (q + (1 # 2)))).

Definition blend (src1 : image) (alpha : Q) (src2 : image)
    (beta gamma : Q) : image :=
  zip_with (zip_with (zip_with (fun a b =>
    saturate (inject_Z a * alpha + inject_Z b * beta + gamma)))) src1 src2.

Definition segment (img : image) (pt1 pt2 : Point2f) (c : colour) (thickness : Z)
  : image :=
  map_pixels (fun x y p =>
    if pointPolygonTest [pt1; pt2] (inject_Z x, inject_Z y) =? 0
    then paint c p else p) img.

Definition Qsqrt (q : Q) : Q :=
  let r := Qred q in
  Qred (Z.sqrt (Qnum r * Z.pos (Qden r) * 4 ^ 24) # (Qden r * 2 ^ 24)).

Definition norm (v : Point2f) : Q := Qsqrt (px v * px v + py v * py v).

Definition backend : Backend :=
  {| Img := image; linalg_norm := norm; fillPoly := fill;
     addWeighted := blend; line := segment |}.

End Raster.

(** ** Concrete gates and frames used in the examples below *)

Module Demo.

#[local] Existing Instance Raster.backend.

Definition Q2 (x y : Z) : Point2f := (inject_Z x, inject_Z y).

(** The attributes of a gate whose construction raised; never a real gate. *)
Definition no_gate : hitBar :=
  {| name := ""; visualize := false; imgSize := None;
     startPoint := Q2 0 0; endPoint := Q2 0 0; maxLength := 0; width := 0%Q;
     direction := Q2 0 0; realmIn := []; realmOut := []; history := [];
     Accumulator := ∅; monitoredCatagories := ∅; imgOut := None;
     stdout := [] |}.

Definition constructed (r : res hitBar) : hitBar :=
  match r with Ok g => g | Raise _ => no_gate end.

(** [hitBar(imgSize=(600,800), startPoint=(0,300), endPoint=(800,300),
            name="bar", monitor=["ball"], width=50.0, maxLength=n,
            visualize=False)] *)
Definition bar (n : Z) : hitBar :=
  constructed (__init__ (Some (600, 800)) (Some (Q2 0 300))
                 (Some (Q2 800 300)) "bar" (Some ["ball"]) (inject_Z 50) n
                 false).

(** [hitBar(startPoint=(5,5), endPoint=(5,5), name="dot",
            monitor=["ball"], visualize=False)] *)
Definition dot : hitBar :=
  constructed (__init__ None (Some (Q2 5 5)) (Some (Q2 5 5)) "dot"
                 (Some ["ball"]) (inject_Z 5) 50 false).

(** [{"labels": ["ball"]*n, "IDs": [0]*n, "midPoints": pts}] *)
Definition balls (pts : list Point2f) : frame :=
  {| labels := (λ _, "ball") <$> pts; IDs := (λ _, 0) <$> pts;
     midPoints := pts; numProjection := None |}.

(** The same frame with ["numProjection": {"ball": [(0, tag)]}]. *)
Definition tagged_balls (tag : Z) (pts : list Point2f) : frame :=
  {| labels := (λ _, "ball") <$> pts; IDs := (λ _, 0) <$> pts;
     midPoints := pts; numProjection := Some {[ "ball" := [(0, tag)] ]} |}.

(** [{"labels": [], "midPoints": [(0, 0)]}] *)
Definition unlabelled : frame :=
  {| labels := []; IDs := []; midPoints := [Q2 0 0]; numProjection := None |}.

(** A grey image of [h] rows and [w] columns, [np.ones((h,w,3)) * 200]. *)
Definition grey (h w : nat) : Raster.image :=
  replicate h (replicate w [200; 200; 200]).

(** [hitBar(imgSize=(2,2), visualize=False)] *)
Definition small_bar : hitBar :=
  constructed (__init__ (Some (2, 2)) None None "hitBar" None (inject_Z 1) 50
                 false).

End Demo.

(** ** Predicates of the statements *)

(** [pt] lies on the closed segment from [a] to [b]. *)
Definition on_segment (pt a b : Point2f) : Prop :=
  exists t : Q, (0 <= t)%Q /\ (t <= 1)%Q /\
    pt_eq pt (vadd a (vscale t (vsub b a))).

(** [a -> b] is an edge of the closed polygon with the vertices [realm]. *)
Definition polygon_edge (realm : list Point2f) (a b : Point2f) : Prop :=
  exists i : nat,
    realm !! i = Some a /\ realm !! (S i mod length realm)%nat = Some b.

Section GatePredicates.
Context `{Backend}.

(** The direction after a confirmed crossing from [oldPt] to [pt]. *)
Definition blended (g : hitBar) (pt oldPt : Point2f) : Point2f :=
  vscale (1 # 2) (vadd (direction g) (vsub pt oldPt)).

(** The scan of [pastFrame] stops at its entry [i]: that entry has the
    category and the identity, its tag is not turned down, its position
    [oldPt] is in [realmIn]; the scan then blends the direction. *)
Definition confirmed_at (pt : Point2f) (cat : string) (objID : Z)
    (numInCat : option Z) (pastFrame : frame) (g g' : hitBar)
    (i : nat) (oldPt : Point2f) : Prop :=
  labels pastFrame !! i = Some cat
  /\ midPoints pastFrame !! i = Some oldPt
  /\ fst (resolve_id (IDs pastFrame) (labels pastFrame) i g) = Ok objID
  /\ tag_rejected pastFrame cat objID numInCat = false
  /\ _inRealm oldPt (realmIn g) = true
  /\ g' = set_direction (blended g pt oldPt) g.

(** A crossing is confirmed for the entry [idx] of the frame, at [pt]: the
    entry is monitored, lies in [realmOut], and [_hasIn] answers [True]. *)
Definition entry_confirmed (detailedResult : frame) (idx : nat)
    (pt : Point2f) (g : hitBar) : Prop :=
  exists cat objID,
    labels detailedResult !! idx = Some cat
    /\ cat ∈ monitoredCatagories g
    /\ fst (resolve_id (IDs detailedResult) (labels detailedResult) idx g)
       = Ok objID
    /\ _inRealm pt (realmOut g) = true
    /\ fst (_hasIn pt cat objID (resolve_numInCat detailedResult cat objID) g)
       = Ok true.

(** [g] with the three attributes the detection loop assigns. *)
Definition counted (d : Point2f) (a : gmap string Z) (o : list log_line)
    (g : hitBar) : hitBar :=
  {| name := name g; visualize := visualize g; imgSize := imgSize g;
     startPoint := startPoint g; endPoint := endPoint g;
     maxLength := maxLength g; width := width g; direction := d;
     realmIn := realmIn g; realmOut := realmOut g; history := history g;
     Accumulator := a;
     monitoredCatagories := monitoredCatagories g; imgOut := imgOut g;
     stdout := o |}.

(** [g'] is [g] up to [direction], [Accumulator] and [stdout]. *)
Definition counts_only (g g' : hitBar) : Prop :=
  g' = counted (direction g') (Accumulator g') (stdout g') g.

(** Every monitored category has a counter; [_monitor] establishes it. *)
Definition counters_present (g : hitBar) : Prop :=
  monitoredCatagories g ⊆ dom (Accumulator g).

#[global] Instance counters_present_dec (g : hitBar) :
  Decision (counters_present g).
Proof. unfold counters_present. apply _. Defined.

(** A frame with one label per position. *)
Definition aligned (f : frame) : Prop :=
  length (labels f) = length (midPoints f).

#[global] Instance aligned_dec (f : frame) : Decision (aligned f).
Proof. unfold aligned. apply _. Defined.

(** The zero-length bar: one point, and no direction. *)
Definition degenerate (g : hitBar) : Prop :=
  pt_eq (startPoint g) (endPoint g)
  /\ pt_eq (direction g) (inject_Z 0, inject_Z 0).

(** Both realms of [g] have all their vertices at the start point. *)
Definition collapsed (g : hitBar) : Prop :=
  Forall (fun v => pt_eq v (startPoint g)) (realmIn g)
  /\ Forall (fun v => pt_eq v (startPoint g)) (realmOut g).

(** No detection of the calls lies at the point [P]. *)
Definition clear_of (P : Point2f) (calls : list (Img * frame)) : Prop :=
  Forall (fun call => Forall (fun pt => ~ pt_eq pt P) (midPoints call.2))
    calls.

#[global] Instance clear_of_dec P calls : Decision (clear_of P calls).
Proof. unfold clear_of. apply _. Defined.

(** The normal [[-dy, dx]] of the bar from [s] to [e]. *)
Definition normal (s e : Point2f) : Point2f :=
  ((- (py e - py s))%Q, (px e - px s)%Q).

End GatePredicates.

(** The last [n] elements of a list. *)
Definition keep_last {A} (n : nat) (l : list A) : list A :=
  drop (length l - n) l.

(** ** More predicates on gates *)

Section MorePredicates.
Context `{Backend}.

(** The counters are those of the monitored categories, no more, no less. *)
Definition keys_match (g : hitBar) : Prop :=
  dom (Accumulator g) = monitoredCatagories g.

#[global] Instance keys_match_dec (g : hitBar) : Decision (keys_match g).
Proof. unfold keys_match. apply _. Defined.

(** The number of lines of [out] printed for the category [cat]. *)
Definition printed_for (cat : string) (out : list log_line) : Z :=
  Z.of_nat (length (filter (fun l => log_cat l = cat) out)).

(** [y] lies between [a] and [b], whichever is the larger. *)
Definition between (a y b : Q) : Prop :=
  (a <= y <= b)%Q \/ (b <= y <= a)%Q.

#[global] Instance Qle_dec (x y : Q) : Decision (x <= y)%Q.
Proof.
  destruct (Qlt_le_dec y x) as [Hlt | Hle];
    [right; by apply Qlt_not_le | by left].
Defined.

#[global] Instance Qlt_dec (x y : Q) : Decision (x < y)%Q.
Proof.
  destruct (Qlt_le_dec x y) as [Hlt | Hle];
    [by left | right; by apply Qle_not_lt].
Defined.

#[global] Instance Qeq_decision (x y : Q) : Decision (x == y)%Q :=
  Qeq_dec x y.

#[global] Instance between_dec (a y b : Q) : Decision (between a y b).
Proof. unfold between. apply _. Defined.

(** [y] is at the lower of [a] and [b] or above it, and below the other. *)
Definition straddled (a y b : Q) : Prop :=
  (a <= y < b)%Q \/ (b <= y < a)%Q.

#[global] Instance straddled_dec (a y b : Q) : Decision (straddled a y b).
Proof. unfold straddled. apply _. Defined.

End MorePredicates.

(** ** The demo under [if __name__ == "__main__"] (lines 455-520)

    The simulated ball and the calls of [update] it feeds.  The calls that
    only show the picture ([cv2.circle], [cv2.putText], [cv2.imshow]) are
    left out; [cv2.waitKey] is the list of the keys it returns, one for each
    turn of the loop. *)

Module Main.

Definition H : Z := 600.
Definition W : Z := 800.
Definition radius : Z := 15.

Record ball := {
  center_x : Z;
  center_y : Z;
  vel_x : Z;
  vel_y : Z
}.

(** Lines 476-479. *)
Definition start : ball :=
  {| center_x := 100; center_y := 300; vel_x := 5; vel_y := 3 |}.

(** Lines 487-492: the move, then the bounce off the sides of the image. *)
Definition move (b : ball) : ball :=
  let center_x := center_x b + vel_x b in
  let center_y := center_y b + vel_y b in
  let vel_x :=
    if (center_x - radius <? 0) || (center_x + radius >=? W)
    then - vel_x b else vel_x b in
  let vel_y :=
    if (center_y - radius <? 0) || (center_y + radius >=? H)
    then - vel_y b else vel_y b in
  {| center_x := center_x; center_y := center_y;
     vel_x := vel_x; vel_y := vel_y |}.

(** Lines 496-504, without the key ["img"] that [update] does not read. *)
Definition detectRes (b : ball) : frame :=
  {| labels := ["ball"]; IDs := [0];
     midPoints := [(inject_Z (center_x b), inject_Z (center_y b))];
     numProjection := Some {[ "ball" := [(0, 0)] ]} |}.

(** Lines 465-473: [hb = hitBar(...)] and [hb._monitor(["ball"])]. *)
Definition hb `{Backend} : res hitBar :=
  match __init__ (Some (H, W)) (Some (inject_Z 200, inject_Z 150))
          (Some (inject_Z 600, inject_Z 450)) "demoBar" None (inject_Z 50)
          50 true with
  | Ok g => Ok (_monitor ["ball"] g)
  | Raise e => Raise e
  end.

(** [ord("q")] *)
Definition quit : Z := 113.

(** The loop [while True]: a turn moves the ball, calls [update] on the
    background and the detection, and leaves the loop on the key [q]; an
    exception of [update] ends the program. *)
Fixpoint loop `{Backend} (bg : Img) (keys : list Z) (b : ball) (g : hitBar)
  : res unit * (ball * hitBar) :=
  match keys with
  | [] => (Ok tt, (b, g))
  | key :: keys' =>
      let b := move b in
      match update bg (detectRes b) g with
      | (Raise e, g) => (Raise e, (b, g))
      | (Ok _, g) =>
          if key =? quit then (Ok tt, (b, g)) else loop bg keys' b g
      end
  end.

(** The program: an exception of the constructor, or the outcome of the
    loop with the ball and the gate as the loop leaves them. *)
Definition main `{Backend} (bg : Img) (keys : list Z)
  : exn + res unit * (ball * hitBar) :=
  match hb with
  | Raise e => inl e
  | Ok g => inr (loop bg keys start g)
  end.

End Main.

(** * Properties *)

(** ** Comparisons on rationals *)

Lemma Qltb_lt x y : Qltb x y = true <-> (x < y)%Q.
Proof.
  unfold Qltb. rewrite negb_true_iff, <- not_true_iff_false, Qle_bool_iff.
  split; [apply Qnot_le_lt | apply Qlt_not_le].
Qed.

Lemma Qltb_ge x y : Qltb x y = false <-> (y <= x)%Q.
Proof.
  unfold Qltb. rewrite negb_false_iff. apply Qle_bool_iff.
Qed.

Lemma Qle_bool_gt x y : Qle_bool x y = false <-> (y < x)%Q.
Proof.
  rewrite <- not_true_iff_false, Qle_bool_iff.
  split; [apply Qnot_le_lt | apply Qlt_not_le].
Qed.

Lemma Qeq_bool_ne x y : Qeq_bool x y = false <-> ~ (x == y)%Q.
Proof.
  rewrite <- not_true_iff_false, Qeq_bool_iff. tauto.
Qed.

(** Turn every boolean comparison of the context and the goal into the
    order or equation it decides. *)
Ltac qbool :=
  repeat match goal with
  | H : _ && _ = true |- _ => apply andb_true_iff in H; destruct H
  | H : _ || _ = false |- _ => apply orb_false_iff in H; destruct H
  | H : Qle_bool _ _ = true |- _ => apply Qle_bool_iff in H
  | H : Qle_bool _ _ = false |- _ => apply Qle_bool_gt in H
  | H : Qltb _ _ = true |- _ => apply Qltb_lt in H
  | H : Qltb _ _ = false |- _ => apply Qltb_ge in H
  | H : Qeq_bool _ _ = true |- _ => apply Qeq_bool_iff in H
  | H : Qeq_bool _ _ = false |- _ => apply Qeq_bool_ne in H
  end.

(** ** The containment test on the boundary *)

(** A point of a segment is on the line through it, and in its box. *)
Lemma on_segment_box pt a b :
  on_segment pt a b ->
  ((py pt - py a) * (px b - px a) == (px pt - px a) * (py b - py a))%Q
  /\ ((px a <= px pt <= px b)%Q \/ (px b <= px pt <= px a)%Q)
  /\ ((py a <= py pt <= py b)%Q \/ (py b <= py pt <= py a)%Q).
Proof.
  intros (t & Ht0 & Ht1 & Hx & Hy).
  unfold vadd, vscale, vsub, px, py in *; simpl in *.
  split; [rewrite Hx, Hy; ring |].
  split.
  - destruct (Qlt_le_dec (fst b) (fst a)) as [Hlt | Hle].
    + right. rewrite Hx. split; nra.
    + left. rewrite Hx. split; nra.
  - destruct (Qlt_le_dec (snd b) (snd a)) as [Hlt | Hle].
    + right. rewrite Hy. split; nra.
    + left. rewrite Hy. split; nra.
Qed.

Lemma edge_step_vertex pt v0 v c : pt_eq pt v -> edge_step pt v0 v c = OnEdge.
Proof.
  intros [Hx Hy]. unfold edge_step.
  destruct (_ || _) eqn:Hbox.
  - apply Qeq_bool_iff in Hx, Hy. now rewrite Hx, Hy.
  - replace (Qeq_bool _ 0) with true; [done |].
    symmetry. apply Qeq_bool_iff. rewrite Hx, Hy. ring.
Qed.

Lemma edge_step_on pt v0 v c :
  on_segment pt v0 v -> ~ pt_eq pt v0 -> edge_step pt v0 v c = OnEdge.
Proof.
  intros Hseg Hne. apply on_segment_box in Hseg as (Hline & Hbx & Hby).
  unfold pt_eq in Hne. unfold edge_step.
  destruct (_ || _) eqn:Hbox.
  - replace (Qeq_bool (py pt) (py v) && _) with true; [done |].
    symmetry. apply andb_true_iff.
    apply orb_true_iff in Hbox as [Hbox | Hbox];
      [apply orb_true_iff in Hbox as [Hbox | Hbox] |]; qbool;
      [| exfalso; lra | exfalso; lra].
    destruct (Qeq_dec (py v0) (py v)) as [Hflat | Hsteep].
    + split; [apply Qeq_bool_iff; lra |].
      apply orb_true_iff. right. apply andb_true_iff.
      split; [apply Qeq_bool_iff; lra |].
      apply orb_true_iff.
      destruct Hbx as [[? ?] | [? ?]]; [left | right];
        apply andb_true_iff; split; now apply Qle_bool_iff.
    + assert (Htop : (py pt == py v)%Q).
      { destruct (Qeq_dec (py pt) (py v)) as [| Hn]; [done |].
        assert (Hy0 : (py pt == py v0)%Q) by lra.
        assert (Hz : ((px pt - px v0) * (py v - py v0) == 0)%Q).
        { rewrite <- Hline, Hy0. ring. }
        apply Qmult_integral in Hz as [Hz | Hz]; [| lra].
        exfalso. apply Hne. split; lra. }
      split; [now apply Qeq_bool_iff |].
      apply orb_true_iff. left. apply Qeq_bool_iff.
      assert (Hz : ((px v - px pt) * (py v - py v0) == 0)%Q).
      { transitivity ((py pt - py v0) * (px v - px v0)
                      - (px pt - px v0) * (py v - py v0))%Q;
          [rewrite Htop; ring | rewrite Hline; ring]. }
      apply Qmult_integral in Hz as [Hz | Hz]; lra.
  - replace (Qeq_bool _ 0) with true; [done |].
    symmetry. apply Qeq_bool_iff. rewrite Hline. ring.
Qed.

Lemma ppt_loop_vertex pt cnt : forall v c u,
  u ∈ cnt -> pt_eq pt u -> ppt_loop pt v cnt c = 0.
Proof.
  induction cnt as [| vi rest IH]; intros v c u Hin Heq.
  - by apply elem_of_nil in Hin.
  - simpl. apply elem_of_cons in Hin as [-> | Hin].
    + by rewrite edge_step_vertex.
    + destruct (edge_step pt v vi c); [done | by eapply IH].
Qed.

(** The loop returns 0 as soon as it meets an edge that carries the point;
    an edge that starts at the point may pass, but then the edge that ends
    there does not. *)
Lemma ppt_loop_edge pt cnt : forall v c i a b,
  (v :: cnt) !! i = Some a -> cnt !! i = Some b ->
  on_segment pt a b ->
  (exists u, u ∈ cnt /\ pt_eq pt u) \/ ~ pt_eq pt a ->
  ppt_loop pt v cnt c = 0.
Proof.
  induction cnt as [| vi rest IH]; intros v c i a b Ha Hb Hseg Hcase.
  - done.
  - destruct Hcase as [(u & Hin & Heq) | Hne];
      [by eapply ppt_loop_vertex |].
    destruct i as [| j]; simpl in *.
    + injection Ha as <-. injection Hb as <-. by rewrite edge_step_on.
    + destruct (edge_step pt v vi c) eqn:Hstep; [done |].
      eapply IH; eauto.
Qed.

Lemma pointPolygonTest_edge realm pt a b :
  polygon_edge realm a b -> on_segment pt a b ->
  pointPolygonTest realm pt = 0.
Proof.
  intros (i & Ha & Hb) Hseg. unfold pointPolygonTest.
  assert (Hlen : (i < length realm)%nat) by by eapply lookup_lt_Some.
  rewrite last_lookup.
  destruct (realm !! pred (length realm)) as [v |] eqn:Hlast;
    [| apply lookup_ge_None in Hlast; lia].
  assert (Hvertex : (exists u, u ∈ realm /\ pt_eq pt u) \/ ~ pt_eq pt a).
  { destruct (pt_eq_dec pt a) as [Heq | Hne]; [left | by right].
    exists a. split; [by eapply list_elem_of_lookup_2 | done]. }
  destruct (decide (S i = length realm)) as [Hwrap | Hin].
  - rewrite Hwrap, Nat.Div0.mod_same in Hb.
    apply (ppt_loop_edge pt realm v 0 0%nat a b); try done.
    simpl. rewrite <- Ha, <- Hlast. f_equal. lia.
  - rewrite Nat.mod_small in Hb by lia.
    by apply (ppt_loop_edge pt realm v 0 (S i) a b).
Qed.

(** ** The scan of the previous frame *)

Section HasIn.
Context `{Backend}.

Ltac unmonad :=
  unfold bind, ret, raise, self, assign, subscript in *; simpl in *.

Lemma resolve_id_pure ids labs i (g : hitBar) :
  snd (resolve_id ids labs i g) = g.
Proof.
  unfold resolve_id. case_bool_decide; unmonad; [| done].
  by destruct (ids !! i).
Qed.

Lemma resolve_id_ok ids (labs : list string) i (g : hitBar) :
  (i < length labs)%nat -> exists z, resolve_id ids labs i g = (Ok z, g).
Proof.
  intros Hi. unfold resolve_id. case_bool_decide as Hlen; unmonad; [| eauto].
  destruct (ids !! i) eqn:Hid; [eauto |].
  apply lookup_ge_None in Hid. lia.
Qed.

Lemma hasIn_loop_outcome pt cat objID numInCat pastFrame labs :
  forall i g r g',
  drop i (labels pastFrame) = labs ->
  hasIn_loop pt cat objID numInCat pastFrame i labs g = (r, g') ->
  (r = Ok true
   /\ exists j oldPt, confirmed_at pt cat objID numInCat pastFrame g g' j oldPt)
  \/ (r <> Ok true /\ g' = g).
Proof.
  induction labs as [| lb rest IH]; intros i g r g' Hdrop Hrun.
  - unmonad. injection Hrun as <- <-. by right.
  - assert (Hlb : labels pastFrame !! i = Some lb).
    { rewrite <- (Nat.add_0_r i), <- lookup_drop, Hdrop. done. }
    assert (Hrest : drop (S i) (labels pastFrame) = rest).
    { by rewrite (drop_S _ _ _ Hlb) in Hdrop; injection Hdrop. }
    simpl in Hrun. case_bool_decide as Hcat; [subst lb | by eapply IH].
    unfold bind at 1 in Hrun.
    destruct (resolve_id _ _ i g) as [[checkID | e] g1] eqn:Hid.
    2: { injection Hrun as <- <-. right.
         pose proof (resolve_id_pure (IDs pastFrame) (labels pastFrame) i g).
         rewrite Hid in *. done. }
    assert (g1 = g) as ->.
    { pose proof (resolve_id_pure (IDs pastFrame) (labels pastFrame) i g).
      by rewrite Hid in *. }
    case_bool_decide as Hsame; [subst checkID | by eapply IH].
    destruct (tag_rejected _ _ _ _) eqn:Htag; [by eapply IH |].
    unmonad.
    destruct (midPoints pastFrame !! i) as [oldPt |] eqn:Hold; unmonad.
    2: { injection Hrun as <- <-. by right. }
    destruct (_inRealm oldPt (realmIn g)) eqn:Hin; [| by eapply IH].
    injection Hrun as <- <-. left. split; [done |].
    exists i, oldPt. unfold confirmed_at. by rewrite Hid.
Qed.

Lemma hasIn_outcome pt cat objID numInCat (g : hitBar) r g' :
  _hasIn pt cat objID numInCat g = (r, g') ->
  (r = Ok true
   /\ exists pastFrame j oldPt,
        py_index (history g) (-2) = Some pastFrame
        /\ confirmed_at pt cat objID numInCat pastFrame g g' j oldPt)
  \/ (r <> Ok true /\ g' = g).
Proof.
  unfold _hasIn. unmonad.
  destruct (py_index (history g) (-2)) as [pastFrame |] eqn:Hpast.
  2: { intros [= <- <-]. by right. }
  case_bool_decide.
  2: { intros [= <- <-]. by right. }
  intros Hrun. apply hasIn_loop_outcome in Hrun as [(-> & j & o & Hc) | ?];
    [left; eauto 10 | by right | done].
Qed.

(** With every candidate turned down by the tag test the scan finds
    nothing, and does not raise. *)
Lemma hasIn_loop_rejected pt cat objID numInCat pastFrame labs :
  tag_rejected pastFrame cat objID numInCat = true ->
  forall i (g : hitBar),
  drop i (labels pastFrame) = labs ->
  hasIn_loop pt cat objID numInCat pastFrame i labs g = (Ok false, g).
Proof.
  intros Htag. induction labs as [| lb rest IH]; intros i g Hdrop; [done |].
  assert (Hlb : labels pastFrame !! i = Some lb).
  { rewrite <- (Nat.add_0_r i), <- lookup_drop, Hdrop. done. }
  assert (Hrest : drop (S i) (labels pastFrame) = rest).
  { by rewrite (drop_S _ _ _ Hlb) in Hdrop; injection Hdrop. }
  simpl. case_bool_decide; [| by apply IH].
  unfold bind at 1.
  destruct (resolve_id_ok (IDs pastFrame) (labels pastFrame) i g)
    as [z ->]; [by eapply lookup_lt_Some |].
  case_bool_decide; [subst z; rewrite Htag |]; by apply IH.
Qed.

End HasIn.

(** ** One detection entry, and the loop over the entries *)

Section Update.
Context `{Backend}.

Ltac unmonad :=
  unfold bind, ret, raise, self, assign, subscript in *; simpl in *.

(** The three ways out of the loop body: the crossing is confirmed and
    counted; it is confirmed but the category has no counter ([KeyError],
    excluded by [counters_present]); or nothing is assigned at all. *)
Lemma update_body_cases detailedResult idx pt (g : hitBar) r g' :
  update_body detailedResult idx pt g = (r, g') ->
  (entry_confirmed detailedResult idx pt g
   /\ exists cat objID pastFrame j oldPt,
        let numInCat := resolve_numInCat detailedResult cat objID in
        let g1 := set_direction (blended g pt oldPt) g in
        labels detailedResult !! idx = Some cat
        /\ py_index (history g) (-2) = Some pastFrame
        /\ confirmed_at pt cat objID numInCat pastFrame g g1 j oldPt
        /\ match Accumulator g !! cat with
           | Some c =>
               r = Ok tt
               /\ g' = print {| log_name := name g; log_cat := cat;
                                log_num := numInCat; log_id := objID;
                                log_count := c + 1 |}
                         (set_Accumulator (<[cat := c + 1]> (Accumulator g))
                            g1)
           | None => r = Raise KeyError /\ g' = g1
           end)
  \/ (~ entry_confirmed detailedResult idx pt g /\ g' = g).
Proof.
  unfold update_body. unfold bind at 1. unfold subscript.
  destruct (labels detailedResult !! idx) as [cat |] eqn:Hcat; unmonad.
  2: { intros [= <- <-]. right. split; [| done].
       intros (c & o & Hc & _). congruence. }
  case_bool_decide as Hmon.
  2: { intros [= <- <-]. right. split; [| done].
       intros (c & o & Hc & Hm & _). congruence. }
  pose proof (resolve_id_pure (IDs detailedResult) (labels detailedResult)
                idx g) as Hpure.
  destruct (resolve_id _ _ idx g) as [[objID | e] g1] eqn:Hid;
    simpl in Hpure; subst g1.
  2: { intros [= <- <-]. right. split; [| done].
       intros (c & o & _ & _ & Ho & _). by rewrite Hid in Ho. }
  destruct (_inRealm pt (realmOut g)) eqn:Hout.
  2: { intros [= <- <-]. right. split; [| done].
       intros (c & o & _ & _ & _ & Hr & _). congruence. }
  destruct (_hasIn pt cat objID _ g) as [rh gh] eqn:Hh.
  destruct (hasIn_outcome _ _ _ _ _ _ _ Hh)
    as [(-> & pastFrame & j & oldPt & Hpast & Hconf) | [Hno ->]].
  - intros Hrun. left. split.
    { exists cat, objID. rewrite Hh, Hid. done. }
    exists cat, objID, pastFrame, j, oldPt. simpl.
    pose proof Hconf as (_ & _ & _ & _ & _ & ->).
    do 3 (split; [done |]).
    unfold Accumulator_incr in Hrun. unmonad.
    destruct (Accumulator g !! cat) as [c |]; unmonad;
      by injection Hrun as <- <-.
  - intros Hrun. right. split.
    { intros (c & o & Hc & _ & Ho & _ & Hok). rewrite Hid in Ho.
      assert (c = cat) as -> by congruence.
      assert (o = objID) as -> by (simpl in Ho; congruence).
      rewrite Hh in Hok. done. }
    destruct rh as [[|] | e]; [done | ..]; unmonad;
      by injection Hrun as <- <-.
Qed.

Lemma counts_only_refl (g : hitBar) : counts_only g g.
Proof. by destruct g. Qed.

Lemma counts_only_trans (g1 g2 g3 : hitBar) :
  counts_only g1 g2 -> counts_only g2 g3 -> counts_only g1 g3.
Proof.
  unfold counts_only. intros H12 H23. rewrite H23 at 1. rewrite H12 at 1.
  done.
Qed.

Lemma update_body_counts_only detailedResult idx pt (g : hitBar) :
  counts_only g (snd (update_body detailedResult idx pt g)).
Proof.
  destruct (update_body detailedResult idx pt g) as [r g'] eqn:Hrun.
  apply update_body_cases in Hrun
    as [(_ & cat & o & pf & j & old & _ & _ & _ & Hacc) | [_ ->]];
    [| apply counts_only_refl].
  simpl in *. destruct (Accumulator g !! cat); destruct Hacc as [_ ->];
    by destruct g.
Qed.

Lemma update_loop_counts_only detailedResult pts : forall idx (g : hitBar),
  counts_only g (snd (update_loop detailedResult idx pts g)).
Proof.
  induction pts as [| pt rest IH]; intros idx g; [apply counts_only_refl |].
  simpl. unfold bind.
  pose proof (update_body_counts_only detailedResult idx pt g) as Hbody.
  destruct (update_body detailedResult idx pt g) as [[[] | e] g1];
    simpl in *; [| done].
  eapply counts_only_trans; [exact Hbody | apply IH].
Qed.

End Update.

(** ** The whole of [update] *)

Section UpdateCall.
Context `{Backend}.

(** The history after the append and the eviction of lines 339-341. *)
Lemma update_prologue_run img detailedResult (g : hitBar) :
  exists g1,
    update_prologue img detailedResult g = (Ok tt, g1)
    /\ history g1 =
         (let h := history g ++ [detailedResult] in
          if Z.of_nat (length h) >? maxLength g then drop 1 h else h)
    /\ (realmIn g1, realmOut g1) = recompute_realms g
    /\ imgOut g1 = Some (render g1 img)
    /\ g1 = set_imgOut (render g1 img)
               (set_realms (realmIn g1) (realmOut g1)
                  (set_history (history g1) g)).
Proof.
  unfold update_prologue, history_pop0, bind, assign, self, ret, raise.
  simpl. rewrite length_app. simpl.
  destruct (_ >? _) eqn:Hfull; simpl.
  - destruct (history g ++ [detailedResult]) as [| f h] eqn:Hh.
    { by destruct (history g). }
    simpl. eexists. split; [done |]. simpl. by rewrite drop_0.
  - eexists. split; [done |]. simpl. done.
Qed.

(** [update] is its prologue followed by the loop; it hands back the image
    drawn by the prologue and the accumulator the loop leaves. *)
Lemma update_run img detailedResult (g : hitBar) :
  exists g1,
    update_prologue img detailedResult g = (Ok tt, g1)
    /\ let '(r, g') :=
         update_loop detailedResult 0 (midPoints detailedResult) g1 in
       update img detailedResult g =
         (match r with
          | Ok _ => Ok (render g1 img, Accumulator g')
          | Raise e => Raise e
          end, g').
Proof.
  destruct (update_prologue_run img detailedResult g)
    as (g1 & Hpro & _ & _ & Himg & _).
  exists g1. split; [done |].
  pose proof (update_loop_counts_only detailedResult
                (midPoints detailedResult) 0 g1) as Hframe.
  destruct (update_loop _ _ _ g1) as [r g'] eqn:Hloop.
  unfold update. unfold bind at 1. rewrite Hpro.
  unfold bind at 1. rewrite Hloop. simpl in Hframe.
  destruct r as [[] | e]; [| done].
  unfold bind, self, ret. rewrite Hframe. simpl. by rewrite Himg.
Qed.

Lemma after_update_counts_only img detailedResult (g : hitBar) :
  exists g1,
    update_prologue img detailedResult g = (Ok tt, g1)
    /\ after_update g (img, detailedResult)
       = snd (update_loop detailedResult 0 (midPoints detailedResult) g1)
    /\ counts_only g1 (after_update g (img, detailedResult)).
Proof.
  destruct (update_run img detailedResult g) as (g1 & Hpro & Hrun).
  exists g1. split; [done |].
  pose proof (update_loop_counts_only detailedResult
                (midPoints detailedResult) 0 g1) as Hframe.
  unfold after_update. simpl.
  destruct (update_loop _ _ _ g1) as [r g'].
  rewrite Hrun. done.
Qed.

Lemma after_update_history (g : hitBar) call :
  history (after_update g call) =
    (let h := history g ++ [call.2] in
     if Z.of_nat (length h) >? maxLength g then drop 1 h else h)
  /\ maxLength (after_update g call) = maxLength g.
Proof.
  destruct call as [img detailedResult].
  destruct (after_update_counts_only img detailedResult g)
    as (g1 & Hpro & _ & Hframe).
  destruct (update_prologue_run img detailedResult g)
    as (g1' & Hpro' & Hhist & _ & _ & Hrest).
  assert (g1' = g1) as -> by congruence.
  rewrite Hframe. simpl. split; [done |].
  by rewrite Hrest.
Qed.

End UpdateCall.

(** ** The bounded history *)

Lemma keep_last_length {A} n (l : list A) : (length (keep_last n l) <= n)%nat.
Proof. unfold keep_last. rewrite length_drop. lia. Qed.

Lemma keep_last_all {A} n (l : list A) :
  (length l <= n)%nat -> keep_last n l = l.
Proof.
  intros Hlen. unfold keep_last.
  by replace (length l - n)%nat with 0%nat by lia.
Qed.

Lemma keep_last_evict {A} n (h : list A) f rest :
  length h = n ->
  keep_last n (drop 1 (h ++ [f]) ++ rest) = keep_last n (h ++ f :: rest).
Proof.
  intros Hlen. unfold keep_last.
  rewrite !length_app, length_drop, length_app. simpl.
  replace (length h + S (length rest) - n)%nat
    with (1 + length rest)%nat by lia.
  rewrite <- drop_drop.
  replace (length h + 1 - 1 + length rest - n)%nat
    with (length rest) by lia.
  f_equal. destruct h; simpl; rewrite ?drop_0; [done |].
  by rewrite <- app_assoc.
Qed.

Lemma run_history `{Backend} (calls : list (Img * frame)) : forall g : hitBar,
  0 <= maxLength g ->
  Z.of_nat (length (history g)) <= maxLength g ->
  maxLength (run g calls) = maxLength g
  /\ history (run g calls)
     = keep_last (Z.to_nat (maxLength g)) (history g ++ calls.*2).
Proof.
  induction calls as [| call rest IH]; intros g Hmax Hlen; simpl.
  - split; [done |]. rewrite app_nil_r, keep_last_all; [done | lia].
  - destruct (after_update_history g call) as [Hhist Hsame].
    simpl in Hhist. rewrite length_app in Hhist. simpl in Hhist.
    destruct (IH (after_update g call)) as [IHmax IHhist].
    { by rewrite Hsame. }
    { rewrite Hsame, Hhist. destruct (Z.gtb_spec
        (Z.of_nat (length (history g) + 1)) (maxLength g));
        rewrite ?length_drop, length_app; simpl; lia. }
    unfold run in *. simpl. rewrite IHmax, IHhist, Hsame, Hhist.
    split; [done |].
    destruct (Z.gtb_spec (Z.of_nat (length (history g) + 1)) (maxLength g)).
    + apply keep_last_evict. lia.
    + by rewrite <- app_assoc.
Qed.

(** C5, amended: for every [maxLength >= 0], after every stream of calls of
    [update] (returning or raising) the history holds at most [maxLength]
    frames, and it holds the last [maxLength] of the frames that were in it or
    were passed since, in their order of arrival: the oldest go first. *)
Theorem C5_history_bounded `{Backend} (g : hitBar)
    (calls : list (Img * frame)) :
  0 <= maxLength g ->
  Z.of_nat (length (history g)) <= maxLength g ->
  maxLength (run g calls) = maxLength g
  /\ Z.of_nat (length (history (run g calls))) <= maxLength g
  /\ history (run g calls)
     = keep_last (Z.to_nat (maxLength g)) (history g ++ calls.*2).
Proof.
  intros Hmax Hlen.
  destruct (run_history calls g Hmax Hlen) as [Hsame Hhist].
  split; [done |]. split; [| done].
  rewrite Hhist.
  pose proof (keep_last_length (Z.to_nat (maxLength g))
                (history g ++ calls.*2)).
  lia.
Qed.

Lemma C5_history_bounded_witness :
  let g := Demo.bar 2 in
  let calls := [(Demo.grey 1 1, Demo.balls [Demo.Q2 1 1]);
                (Demo.grey 1 1, Demo.balls [Demo.Q2 2 2]);
                (Demo.grey 1 1, Demo.balls [Demo.Q2 3 3])] in
  0 <= maxLength g
  /\ Z.of_nat (length (history g)) <= maxLength g
  /\ history (run g calls)
     = [Demo.balls [Demo.Q2 2 2]; Demo.balls [Demo.Q2 3 3]].
Proof.
  intros g calls.
  assert (H0 : 0 <= maxLength g) by (vm_compute; discriminate).
  assert (H1 : Z.of_nat (length (history g)) <= maxLength g)
    by (vm_compute; discriminate).
  split; [exact H0 |]. split; [exact H1 |].
  destruct (C5_history_bounded g calls H0 H1) as (_ & _ & ->).
  reflexivity.
Defined.

(** C5 as stated fails for a negative [maxLength]: the history is empty
    after the call, and 0 is not at most -1. *)
Lemma C5_counterexample :
  let g := run (Demo.bar (-1)) [(Demo.grey 1 1, Demo.balls [])] in
  maxLength g = -1 /\ ~ Z.of_nat (length (history g)) <= maxLength g.
Proof.
  split; [reflexivity |]. vm_compute. intros Hle. by apply Hle.
Qed.

(** ** Monitoring categories *)

Lemma monitor_loop_lookup (categories : list string) :
  forall (acc : gmap string Z) (cat : string),
  monitor_loop categories acc !! cat =
    match acc !! cat with
    | Some n => Some n
    | None => if bool_decide (cat ∈ categories) then Some 0 else None
    end.
Proof.
  induction categories as [| c rest IH]; intros acc cat; simpl.
  - by destruct (acc !! cat).
  - rewrite IH. case_bool_decide as Hdom.
    + apply elem_of_dom in Hdom as [n Hn].
      destruct (acc !! cat) eqn:Hcat; [done |].
      assert (cat ≠ c) by congruence.
      erewrite (bool_decide_ext (cat ∈ c :: rest)); [done |].
      rewrite elem_of_cons. split; [by intros [? | ?] | by right].
    + apply not_elem_of_dom in Hdom.
      destruct (decide (cat = c)) as [-> | Hne].
      * rewrite lookup_insert_eq, Hdom.
        rewrite bool_decide_eq_true_2; [done | apply elem_of_cons; by left].
      * rewrite lookup_insert_ne by done.
        destruct (acc !! cat); [done |].
        erewrite (bool_decide_ext (cat ∈ c :: rest)); [done |].
        rewrite elem_of_cons. split; [by intros [? | ?] | by right].
Qed.

Lemma monitor_loop_idempotent (categories : list string)
    (acc : gmap string Z) :
  monitor_loop categories (monitor_loop categories acc)
  = monitor_loop categories acc.
Proof.
  apply map_eq. intros cat. rewrite !monitor_loop_lookup.
  destruct (acc !! cat); [done |]. by case_bool_decide.
Qed.

Lemma monitor_counters_present `{Backend} categories (g : hitBar) :
  counters_present g -> counters_present (_monitor categories g).
Proof.
  unfold counters_present, _monitor. simpl. intros Hsub cat Hin.
  apply elem_of_dom. rewrite monitor_loop_lookup.
  apply elem_of_union in Hin as [Hin | Hin].
  - apply Hsub, elem_of_dom in Hin as [n ->]. eauto.
  - apply elem_of_list_to_set in Hin.
    destruct (Accumulator g !! cat); [eauto |].
    rewrite bool_decide_eq_true_2 by done. eauto.
Qed.

(** C6: monitoring is idempotent.  A second call of [_monitor] with the same
    names leaves the gate (its monitored set and its accumulator included) as
    the first call left it, and a call keeps every counter that was there:
    it only adds the counter 0 for the names that had none. *)
Theorem C6_monitor_idempotent `{Backend} (categories : list string)
    (g : hitBar) :
  _monitor categories (_monitor categories g) = _monitor categories g
  /\ forall cat,
       Accumulator (_monitor categories g) !! cat =
         match Accumulator g !! cat with
         | Some n => Some n
         | None => if bool_decide (cat ∈ categories) then Some 0 else None
         end.
Proof.
  split.
  - unfold _monitor, set_monitoredCatagories, set_Accumulator. simpl.
    rewrite monitor_loop_idempotent. f_equal.
    by rewrite <- (assoc_L (∪)), (idemp_L (∪)).
  - intros cat. apply monitor_loop_lookup.
Qed.

(** ** Construction *)

(** C10: with exactly one of [startPoint] and [endPoint] given, [__init__]
    does what it does with neither: it needs the reference size (without it
    the subscript of [None] raises [TypeError]), and the bar is the
    horizontal line from [(0, midRow)] to [(imgWidth, midRow)]; the endpoint
    that was given is not used. *)
Theorem C10_single_endpoint_ignored `{Backend} (imgSize : option (Z * Z))
    (p : Point2f) (name : string) (monitor : option (list string))
    (width : Q) (maxLength : Z) (visualize : bool) :
  let only_start :=
    __init__ imgSize (Some p) None name monitor width maxLength visualize in
  let only_end :=
    __init__ imgSize None (Some p) name monitor width maxLength visualize in
  let neither :=
    __init__ imgSize None None name monitor width maxLength visualize in
  only_start = neither /\ only_end = neither
  /\ match imgSize with
     | None => neither = Raise TypeError
     | Some (h, w) =>
         exists g, neither = Ok g
           /\ startPoint g = (inject_Z 0, inject_Z (h / 2))
           /\ endPoint g = (inject_Z w, inject_Z (h / 2))
     end.
Proof.
  simpl. do 2 (split; [done |]).
  destruct imgSize as [[h w] |]; [| done].
  unfold __init__.
  destruct (Qltb _ _); destruct monitor as [[| c cs] |]; eexists; done.
Qed.

(** ** The disambiguator in the previous frame *)

Lemma tag_rejected_head pastFrame cat objID num :
  tag_rejected pastFrame cat objID (Some num) =
    match numProjection pastFrame with
    | None => false
    | Some np =>
        bool_decide (head (tags_of (default [] (np !! cat)) objID) ≠ Some num)
    end.
Proof.
  unfold tag_rejected. destruct (numProjection pastFrame) as [np |]; [| done].
  destruct (tags_of _ objID) as [| a arr]; simpl.
  - done.
  - apply bool_decide_ext. split; congruence.
Qed.




(** ** What a confirmed crossing assigns *)

Lemma counters_present_lookup `{Backend} (g : hitBar) cat :
  counters_present g -> cat ∈ monitoredCatagories g ->
  exists c, Accumulator g !! cat = Some c.
Proof. intros Hsub Hin. by apply Hsub, elem_of_dom in Hin. Qed.

Lemma after_update_counters_present `{Backend} (g : hitBar) call :
  counters_present g -> counters_present (after_update g call).
Proof.
  intros Hpresent. destruct call as [img detailedResult].
  destruct (after_update_counts_only img detailedResult g)
    as (g1 & Hpro & -> & _).
  destruct (update_prologue_run img detailedResult g)
    as (g1' & Hpro' & _ & _ & _ & Hrest).
  assert (g1' = g1) as -> by congruence.
  assert (Hpresent1 : counters_present g1) by by rewrite Hrest.
  clear Hpro Hpro' Hrest Hpresent.
  generalize 0%nat. revert g1 Hpresent1.
  induction (midPoints detailedResult) as [| pt rest IH];
    intros g1 Hpresent1 idx; [done |].
  simpl. unfold bind.
  destruct (update_body detailedResult idx pt g1) as [r g2] eqn:Hrun.
  assert (Hpresent2 : counters_present g2).
  { apply update_body_cases in Hrun
      as [[Hyes Hcase] | [_ ->]]; [| done].
    destruct Hcase as (cat & o & pf & j & old & _ & _ & _ & Hacc).
    simpl in Hacc. destruct (Accumulator g1 !! cat); destruct Hacc as [_ ->];
      [| done].
    unfold counters_present in *. simpl. rewrite dom_insert_L.
    intros x Hx. apply elem_of_union. right. by apply Hpresent1. }
  destruct r as [[] | e]; [by apply IH | done].
Qed.



(** ** Duplicate detections *)

(** C9: two entries of one frame with the same monitored category, the same
    identity, the same tag and the same position, both across the bar from
    the one matching entry of the previous frame: the call of [update]
    returns, and has counted the category twice. *)
Theorem C9_duplicates_double_count :
  exists (g : @hitBar Raster.backend) (img : Raster.image) (f : frame)
         (cat : string) (id tag c : Z) (pt : Point2f),
    labels f = [cat; cat] /\ IDs f = [id; id] /\ midPoints f = [pt; pt]
    /\ numProjection f = Some {[ cat := [(id, tag)] ]}
    /\ cat ∈ monitoredCatagories g
    /\ Accumulator g !! cat = Some c
    /\ exists out acc,
         fst (@update Raster.backend img f g) = Ok (out, acc)
         /\ acc !! cat = Some (c + 2)
         /\ Accumulator (after_update g (img, f)) !! cat = Some (c + 2).
Proof.
  exists (run (Demo.bar 50)
            [(Demo.grey 1 1, Demo.tagged_balls 7 [Demo.Q2 400 280])]),
    (Demo.grey 1 1),
    (Demo.tagged_balls 7 [Demo.Q2 400 320; Demo.Q2 400 320]),
    "ball", 0, 7, 0, (Demo.Q2 400 320).
  do 4 (split; [reflexivity |]).
  split; [apply (bool_decide_unpack _); vm_compute; exact I |].
  split; [reflexivity |].
  eexists _, _. split; [vm_compute; reflexivity |].
  split; reflexivity.
Qed.

(** ** The realms after a call, and their boundary *)

Lemma after_update_realms `{Backend} (g : hitBar) call :
  let g' := after_update g call in
  (realmIn g', realmOut g') = recompute_realms g
  /\ startPoint g' = startPoint g /\ endPoint g' = endPoint g
  /\ width g' = width g /\ monitoredCatagories g' = monitoredCatagories g.
Proof.
  destruct call as [img detailedResult].
  destruct (after_update_counts_only img detailedResult g)
    as (g1 & Hpro & _ & Hframe).
  destruct (update_prologue_run img detailedResult g)
    as (g1' & Hpro' & _ & Hrealms & _ & Hrest).
  assert (g1' = g1) as -> by congruence.
  simpl. rewrite Hframe. simpl. split; [done |]. by rewrite Hrest.
Qed.

Lemma on_segment_sym pt a b : on_segment pt a b -> on_segment pt b a.
Proof.
  intros (t & Ht0 & Ht1 & Hx & Hy). exists (1 - t)%Q.
  split; [lra |]. split; [lra |].
  unfold pt_eq, vadd, vscale, vsub, px, py in *; simpl in *.
  split; [rewrite Hx | rewrite Hy]; ring.
Qed.



(** ** The zero-length bar *)

Section Degenerate.
Context `{Backend}.

(** Around a polygon shrunk to the point [P], an edge never carries another
    point, and never counts as crossed. *)
Lemma edge_step_off_point pt P v0 v c :
  pt_eq v0 P -> pt_eq v P -> ~ pt_eq pt P -> edge_step pt v0 v c = Next c.
Proof.
  unfold pt_eq. intros [H0x H0y] [Hvx Hvy] Hne. unfold edge_step.
  destruct (_ || _) eqn:Hbox.
  - destruct (Qeq_bool (py pt) (py v) && _) eqn:Hon; [exfalso | done].
    apply andb_true_iff in Hon as [Hy Hx]. qbool. apply Hne.
    apply orb_true_iff in Hx as [Hx | Hx]; qbool; [split; lra |].
    match goal with
    | Hb : _ || _ = true |- _ => apply orb_true_iff in Hb as [Hb | Hb]
    end; qbool; split; lra.
  - exfalso. apply orb_false_iff in Hbox as [Hbox _].
    apply orb_false_iff in Hbox as [Hup Hdown].
    apply andb_false_iff in Hup, Hdown.
    destruct Hup, Hdown; qbool; lra.
Qed.

Lemma ppt_loop_off_point pt P cnt : forall v c,
  pt_eq v P -> Forall (fun u => pt_eq u P) cnt -> ~ pt_eq pt P ->
  ppt_loop pt v cnt c = if (c mod 2 =? 0) then -1 else 1.
Proof.
  induction cnt as [| vi rest IH]; intros v c Hv Hall Hne; [done |].
  apply Forall_cons in Hall as [Hvi Hrest]. simpl.
  rewrite (edge_step_off_point pt P v vi c) by done. by apply IH.
Qed.

Lemma inRealm_collapsed pt P realm :
  Forall (fun u => pt_eq u P) realm -> _inRealm pt realm = true -> pt_eq pt P.
Proof.
  intros Hall Hin. destruct (decide (pt_eq pt P)) as [| Hne]; [done |].
  exfalso. unfold _inRealm, pointPolygonTest in Hin.
  destruct (last realm) as [v |] eqn:Hlast; [| done].
  rewrite (ppt_loop_off_point pt P realm v 0) in Hin; [done | | done..].
  apply last_Some_elem_of in Hlast.
  by apply (proj1 (Forall_forall _ _) Hall).
Qed.

Lemma recompute_realms_degenerate (g : hitBar) :
  degenerate g ->
  Forall (fun v => pt_eq v (startPoint g)) (recompute_realms g).1
  /\ Forall (fun v => pt_eq v (startPoint g)) (recompute_realms g).2.
Proof.
  intros [[Hx Hy] [Hdx Hdy]]. unfold recompute_realms. simpl in *.
  assert (Hwx : forall k : Q, (k * px (direction g) == 0)%Q).
  { intros k. rewrite Hdx. unfold inject_Z. ring. }
  assert (Hwy : forall k : Q, (k * py (direction g) == 0)%Q).
  { intros k. rewrite Hdy. unfold inject_Z. ring. }
  split; repeat apply Forall_cons_2; try apply Forall_nil_2;
    unfold pt_eq, vadd, vscale; simpl; rewrite ?Hwx, ?Hwy;
    split; lra.
Qed.

Lemma blended_degenerate (g : hitBar) pt oldPt P :
  pt_eq (direction g) (inject_Z 0, inject_Z 0) ->
  pt_eq pt P -> pt_eq oldPt P ->
  pt_eq (blended g pt oldPt) (inject_Z 0, inject_Z 0).
Proof.
  unfold pt_eq, blended, vscale, vadd, vsub, px, py. simpl.
  unfold inject_Z. intros [? ?] [? ?] [? ?]. split; lra.
Qed.

Lemma update_body_degenerate detailedResult idx pt (g : hitBar) :
  degenerate g -> collapsed g ->
  let g' := snd (update_body detailedResult idx pt g) in
  degenerate g' /\ collapsed g'
  /\ startPoint g' = startPoint g
  /\ (~ pt_eq pt (startPoint g) -> g' = g).
Proof.
  intros Hdeg Hcol.
  destruct (update_body detailedResult idx pt g) as [r g'] eqn:Hrun.
  apply update_body_cases in Hrun as [[Hyes Hcase] | [Hno ->]]; simpl;
    [| done].
  destruct Hyes as (_ & _ & _ & _ & _ & Hout & _).
  apply (inRealm_collapsed _ _ _ (proj2 Hcol)) in Hout.
  destruct Hcase as (cat & o & pf & j & old & _ & _ & Hconf & Hacc).
  destruct Hconf as (_ & _ & _ & _ & Hin & _).
  apply (inRealm_collapsed _ _ _ (proj1 Hcol)) in Hin.
  pose proof (blended_degenerate g pt old _ (proj2 Hdeg) Hout Hin) as Hzero.
  assert (Hg' : degenerate g' /\ collapsed g'
                /\ startPoint g' = startPoint g).
  { destruct (Accumulator g !! cat); destruct Hacc as [_ ->];
      (split; [split; [apply Hdeg | exact Hzero] | split; [apply Hcol |]]);
      done. }
  destruct Hg' as (? & ? & ?). do 3 (split; [done |]).
  intros Hne. by destruct Hne.
Qed.

Lemma update_loop_degenerate detailedResult pts : forall idx (g : hitBar),
  degenerate g -> collapsed g ->
  let g' := snd (update_loop detailedResult idx pts g) in
  degenerate g' /\ startPoint g' = startPoint g
  /\ (Forall (fun pt => ~ pt_eq pt (startPoint g)) pts -> g' = g).
Proof.
  induction pts as [| pt rest IH]; intros idx g Hdeg Hcol; [done |].
  simpl. unfold bind.
  destruct (update_body_degenerate detailedResult idx pt g Hdeg Hcol)
    as (Hdeg1 & Hcol1 & Hstart1 & Hsame1).
  destruct (update_body detailedResult idx pt g) as [[[] | e] g1];
    simpl in *.
  - destruct (IH (S idx) g1 Hdeg1 Hcol1) as (Hdeg2 & Hstart2 & Hsame2).
    split; [done |]. split; [congruence |].
    intros Hclear. apply Forall_cons in Hclear as [Hpt Hrest].
    rewrite Hsame2; [by apply Hsame1 |]. by rewrite Hstart1.
  - split; [done |]. split; [done |].
    intros Hclear. apply Forall_cons in Hclear as [Hpt _]. by apply Hsame1.
Qed.

Lemma after_update_degenerate (g : hitBar) call :
  degenerate g ->
  let g' := after_update g call in
  degenerate g' /\ startPoint g' = startPoint g
  /\ (Forall (fun pt => ~ pt_eq pt (startPoint g)) (midPoints call.2) ->
      Accumulator g' = Accumulator g /\ stdout g' = stdout g
      /\ direction g' = direction g).
Proof.
  intros Hdeg. destruct call as [img detailedResult].
  destruct (after_update_counts_only img detailedResult g)
    as (g1 & Hpro & -> & _).
  destruct (update_prologue_run img detailedResult g)
    as (g1' & Hpro' & _ & Hrealms & _ & Hrest).
  assert (g1' = g1) as -> by congruence.
  assert (Hstart : startPoint g1 = startPoint g) by by rewrite Hrest.
  assert (Hdeg1 : degenerate g1) by by rewrite Hrest.
  assert (Hcol1 : collapsed g1).
  { destruct (recompute_realms_degenerate g Hdeg) as [Hin Hout].
    rewrite <- Hrealms in Hin, Hout. unfold collapsed. by rewrite Hstart. }
  destruct (update_loop_degenerate detailedResult (midPoints detailedResult)
              0 g1 Hdeg1 Hcol1) as (Hdeg2 & Hstart2 & Hsame).
  split; [done |]. split; [congruence |].
  intros Hclear. rewrite Hsame by by rewrite Hstart.
  by rewrite Hrest.
Qed.

Lemma run_degenerate calls : forall g : hitBar,
  degenerate g ->
  degenerate (run g calls) /\ startPoint (run g calls) = startPoint g
  /\ (clear_of (startPoint g) calls ->
      Accumulator (run g calls) = Accumulator g
      /\ stdout (run g calls) = stdout g
      /\ direction (run g calls) = direction g).
Proof.
  induction calls as [| call rest IH]; intros g Hdeg; [done |].
  destruct (after_update_degenerate g call Hdeg) as (Hdeg1 & Hstart1 & Hsame1).
  destruct (IH _ Hdeg1) as (Hdeg2 & Hstart2 & Hsame2).
  unfold run in *. simpl. split; [done |]. split; [congruence |].
  intros Hclear. apply Forall_cons in Hclear as [Hcall Hrest].
  destruct (Hsame1 Hcall) as (Hacc1 & Hout1 & Hdir1).
  destruct Hsame2 as (Hacc2 & Hout2 & Hdir2); [by rewrite Hstart1 |].
  repeat split; congruence.
Qed.

End Degenerate.

Lemma monitor_degenerate `{Backend} categories (g : hitBar) :
  degenerate g -> degenerate (_monitor categories g).
Proof. done. Qed.

Lemma init_degenerate `{Backend} imgSize (P : Point2f) name monitor width
    maxLength visualize :
  (linalg_norm (normal P P) < degenerate_eps)%Q ->
  exists g0 : hitBar,
    __init__ imgSize (Some P) (Some P) name monitor width maxLength visualize
    = Ok g0
    /\ startPoint g0 = P /\ degenerate g0 /\ stdout g0 = [].
Proof.
  intros Hnorm. apply Qltb_lt in Hnorm. unfold __init__.
  change (linalg_norm _) with (linalg_norm (normal P P)). rewrite Hnorm.
  destruct monitor as [[| c cs] |]; eexists; (split; [done |]);
    repeat split; simpl; lra.
Qed.




(** ** Calls that return *)

Section Total.
Context `{Backend}.

Ltac unmonad :=
  unfold bind, ret, raise, self, assign, subscript in *; simpl in *.

Lemma py_index_elem_of {A} (l : list A) i x : py_index l i = Some x -> x ∈ l.
Proof.
  unfold py_index. repeat case_match; try done;
    intros Hx; by eapply list_elem_of_lookup_2.
Qed.

Lemma hasIn_loop_ok pt cat objID numInCat pastFrame labs :
  (length (labels pastFrame) <= length (midPoints pastFrame))%nat ->
  forall i (g : hitBar),
  drop i (labels pastFrame) = labs ->
  exists b g', hasIn_loop pt cat objID numInCat pastFrame i labs g = (Ok b, g').
Proof.
  intros Hlen. induction labs as [| lb rest IH]; intros i g Hdrop;
    [by eexists _, _ |].
  assert (Hlb : labels pastFrame !! i = Some lb).
  { rewrite <- (Nat.add_0_r i), <- lookup_drop, Hdrop. done. }
  assert (Hrest : drop (S i) (labels pastFrame) = rest).
  { by rewrite (drop_S _ _ _ Hlb) in Hdrop; injection Hdrop. }
  assert (Hi : (i < length (labels pastFrame))%nat)
    by by eapply lookup_lt_Some.
  simpl. case_bool_decide; [| by apply IH].
  unfold bind at 1.
  destruct (resolve_id_ok (IDs pastFrame) (labels pastFrame) i g Hi)
    as [z ->].
  case_bool_decide; [| by apply IH].
  destruct (tag_rejected _ _ _ _); [by apply IH |].
  destruct (lookup_lt_is_Some_2 (midPoints pastFrame) i) as [oldPt Hold];
    [lia |].
  unmonad. rewrite Hold. unmonad.
  destruct (_inRealm oldPt (realmIn g)); [by eexists _, _ | by apply IH].
Qed.

Lemma hasIn_ok pt cat objID numInCat (g : hitBar) :
  Forall aligned (history g) ->
  exists b g', _hasIn pt cat objID numInCat g = (Ok b, g').
Proof.
  intros Hhist. unfold _hasIn. unmonad.
  destruct (py_index (history g) (-2)) as [pastFrame |] eqn:Hpast;
    [| by eexists _, _].
  case_bool_decide; [| by eexists _, _].
  apply hasIn_loop_ok; [| done].
  apply py_index_elem_of in Hpast.
  apply (proj1 (Forall_forall _ _) Hhist) in Hpast.
  unfold aligned in Hpast. lia.
Qed.

Lemma update_body_ok detailedResult idx pt (g : hitBar) :
  (idx < length (labels detailedResult))%nat ->
  counters_present g -> Forall aligned (history g) ->
  exists g',
    update_body detailedResult idx pt g = (Ok tt, g')
    /\ counters_present g' /\ history g' = history g.
Proof.
  intros Hidx Hpresent Hhist.
  unfold update_body. unfold bind at 1. unfold subscript.
  destruct (lookup_lt_is_Some_2 (labels detailedResult) idx Hidx)
    as [cat ->]. unmonad.
  case_bool_decide as Hmon; [| by eexists].
  destruct (resolve_id_ok (IDs detailedResult) (labels detailedResult)
              idx g Hidx) as [objID ->].
  destruct (_inRealm pt (realmOut g)); [| by eexists].
  destruct (hasIn_ok pt cat objID
              (resolve_numInCat detailedResult cat objID) g Hhist)
    as (b & gh & Hh).
  rewrite Hh.
  apply hasIn_outcome in Hh
    as [(Hb & pf & j & old & _ & _ & _ & _ & _ & _ & ->) | [Hb ->]].
  - injection Hb as ->.
    destruct (counters_present_lookup g cat Hpresent Hmon) as [c Hc].
    unfold Accumulator_incr. unmonad. rewrite Hc. unmonad.
    eexists. split; [done |]. split; [| done].
    unfold counters_present in *. simpl. rewrite dom_insert_L. set_solver.
  - destruct b; [done | by eexists].
Qed.

Lemma update_loop_ok detailedResult pts : forall idx (g : hitBar),
  (idx + length pts <= length (labels detailedResult))%nat ->
  counters_present g -> Forall aligned (history g) ->
  exists g',
    update_loop detailedResult idx pts g = (Ok tt, g')
    /\ counters_present g'.
Proof.
  induction pts as [| pt rest IH]; intros idx g Hlen Hpresent Hhist;
    [by eexists |].
  simpl in *. unfold bind.
  destruct (update_body_ok detailedResult idx pt g)
    as (g1 & -> & Hpresent1 & Hhist1); [lia | done.. |].
  apply IH; [lia | done | by rewrite Hhist1].
Qed.

Lemma update_ok img detailedResult (g : hitBar) :
  counters_present g -> Forall aligned (history g) ->
  aligned detailedResult ->
  exists out g',
    update img detailedResult g = (Ok (out, Accumulator g'), g')
    /\ counters_present g' /\ Forall aligned (history g').
Proof.
  intros Hpresent Hhist Hdr.
  destruct (update_run img detailedResult g) as (g1 & Hpro & Hrun).
  destruct (update_prologue_run img detailedResult g)
    as (g1' & Hpro' & Hh1 & _ & _ & Hrest).
  assert (g1' = g1) as -> by congruence.
  assert (Hhist1 : Forall aligned (history g1)).
  { rewrite Hh1. simpl.
    assert (Forall aligned (history g ++ [detailedResult]))
      by (apply Forall_app; split; [done | by apply Forall_singleton]).
    destruct (_ >? _); [by apply Forall_drop | done]. }
  assert (Hpresent1 : counters_present g1) by by rewrite Hrest.
  pose proof (update_loop_counts_only detailedResult
                (midPoints detailedResult) 0 g1) as Hframe.
  destruct (update_loop_ok detailedResult (midPoints detailedResult) 0 g1)
    as (g' & Hloop & Hpresent'); [unfold aligned in Hdr; simpl; lia | done.. |].
  rewrite Hloop in Hrun, Hframe. simpl in Hframe.
  exists (render g1 img), g'. split; [done |]. split; [done |].
  by rewrite Hframe.
Qed.

Lemma init_outcome imgSize s e name monitor width maxLength visualize :
  match __init__ imgSize s e name monitor width maxLength visualize with
  | Raise exn => exn = TypeError /\ imgSize = None /\ (s = None \/ e = None)
  | Ok g0 =>
      counters_present g0 /\ history g0 = []
      /\ ~ (imgSize = None /\ (s = None \/ e = None))
  end.
Proof.
  assert (Hempty : forall g : hitBar,
            Accumulator g = ∅ -> monitoredCatagories g = ∅ ->
            counters_present g).
  { intros g Ha Hm. unfold counters_present. rewrite Hm. set_solver. }
  unfold __init__.
  destruct s as [s |], e as [e |], imgSize as [[h w] |]; simpl;
    try (split; [done |]; split; [done |]; tauto);
    destruct (Qltb _ _); destruct monitor as [[| c cs] |];
    (split; [try apply monitor_counters_present; by apply Hempty |]);
    (split; [done |]); intros [? [? | ?]]; done.
Qed.

End Total.




(** ** The image that [update] returns *)

(** Whatever [visualize] says, the image returned is the blend of the input
    with a copy on which both realms are filled; [visualize] only decides
    whether the centerline is drawn over it. *)
Lemma update_image `{Backend} img detailedResult (g : hitBar) out acc g' :
  update img detailedResult g = (Ok (out, acc), g') ->
  let '(rin, rout) := recompute_realms g in
  let overlay :=
    fillPoly (fillPoly img (to_int32 rin) [0; 0; 255; 100])
      (to_int32 rout) [255; 0; 0; 100] in
  let blend :=
    addWeighted overlay (4 # 10)%Q img (1 - (4 # 10))%Q (inject_Z 0) in
  out = if visualize g
        then line blend (startPoint g) (endPoint g) [0; 0; 255] 2
        else blend.
Proof.
  intros Hrun.
  destruct (update_run img detailedResult g) as (g1 & Hpro & Hloop).
  destruct (update_prologue_run img detailedResult g)
    as (g1' & Hpro' & _ & Hrealms & _ & Hrest).
  assert (g1' = g1) as -> by congruence.
  destruct (update_loop _ _ _ g1) as [[[] | e] g2];
    rewrite Hrun in Hloop; [| done].
  injection Hloop as -> _ _.
  destruct (recompute_realms g) as [rin rout].
  injection Hrealms as Hin Hout.
  unfold render. rewrite Hin, Hout. by rewrite Hrest.
Qed.

(** C2: the claim is what the docstrings promise, and the code breaks it.
    With [visualize=False] the 2x2 grey image comes back with the first row
    tinted by the fill of [realmIn] and the second by that of [realmOut]:
    only the centerline is left out. *)
Theorem C2_image_blended_without_visualize :
  let g := Demo.small_bar in
  let img := Demo.grey 2 2 in
  visualize g = false
  /\ exists out acc,
       fst (@update Raster.backend img (Demo.balls []) g) = Ok (out, acc)
       /\ out = [[[120; 120; 222]; [120; 120; 222]];
                 [[222; 120; 120]; [222; 120; 120]]]
       /\ out <> img.
Proof.
  split; [reflexivity |].
  eexists _, _. split; [vm_compute; reflexivity |].
  split; [reflexivity | discriminate].
Qed.

(** * Further properties of the class *)

(** ** What a call that counts needs *)

Section Crossings.
Context `{Backend}.

Lemma resolve_id_any ids labs i (g1 g2 : hitBar) :
  fst (resolve_id ids labs i g1) = fst (resolve_id ids labs i g2).
Proof.
  unfold resolve_id, subscript, ret, raise.
  case_bool_decide; [| done]. by destruct (ids !! i).
Qed.

(** A loop either assigns nothing, or met an entry whose crossing was
    confirmed, in a gate that the entries before it had left with the same
    realms, history and monitored set. *)
Lemma update_loop_cases detailedResult pts : forall idx (g : hitBar),
  snd (update_loop detailedResult idx pts g) = g
  \/ exists k pt gi,
       pts !! k = Some pt /\ counts_only g gi
       /\ entry_confirmed detailedResult (idx + k) pt gi.
Proof.
  induction pts as [| pt rest IH]; intros idx g; [by left |].
  simpl. unfold bind.
  destruct (update_body detailedResult idx pt g) as [r g1] eqn:Hbody.
  apply update_body_cases in Hbody as [[Hyes _] | [_ ->]].
  - right. exists 0%nat, pt, g. rewrite Nat.add_0_r.
    split; [done |]. split; [apply counts_only_refl | done].
  - destruct r as [[] | e]; [| by left].
    destruct (IH (S idx) g) as [Hsame | (k & pt' & gi & Hk & Hgi & Hconf)];
      [by left | right].
    exists (S k), pt', gi. split; [done |]. split; [done |].
    by rewrite Nat.add_succ_r.
Qed.

(** The frame that [_hasIn] reads after the prologue is the last frame the
    history held before the call. *)
Lemma prologue_past img detailedResult (g g1 : hitBar) pastFrame :
  update_prologue img detailedResult g = (Ok tt, g1) ->
  py_index (history g1) (-2) = Some pastFrame ->
  last (history g) = Some pastFrame
  /\ (2 <= length (history g1))%nat.
Proof.
  intros Hpro.
  destruct (update_prologue_run img detailedResult g)
    as (g1' & Hpro' & Hhist & _).
  assert (g1' = g1) as -> by congruence.
  rewrite Hhist. simpl. rewrite last_lookup. unfold py_index.
  rewrite length_app. simpl.
  destruct (_ >? _); simpl.
  - rewrite length_drop, length_app. simpl.
    destruct (Z.leb_spec 0 (Z.of_nat (length (history g) + 1 - 1) + -2));
      [| done].
    rewrite lookup_drop, lookup_app_l by lia.
    intros <-. split; [f_equal; lia | lia].
  - rewrite length_app. simpl.
    destruct (Z.leb_spec 0 (Z.of_nat (length (history g) + 1) + -2));
      [| done].
    rewrite lookup_app_l by lia.
    intros <-. split; [f_equal; lia | lia].
Qed.

(** A call assigns no counter, no direction and prints nothing, or the loop
    met a confirmed crossing: then the gate after the prologue holds two
    frames at least, and the entry and its match are as follows. *)
Lemma after_update_cases img detailedResult (g : hitBar) :
  let g' := after_update g (img, detailedResult) in
  (Accumulator g' = Accumulator g /\ direction g' = direction g
   /\ stdout g' = stdout g)
  \/ exists g1 pastFrame idx j cat objID pt oldPt,
    update_prologue img detailedResult g = (Ok tt, g1)
    /\ py_index (history g1) (-2) = Some pastFrame
    /\ labels detailedResult !! idx = Some cat
    /\ midPoints detailedResult !! idx = Some pt
    /\ cat ∈ monitoredCatagories g
    /\ fst (resolve_id (IDs detailedResult) (labels detailedResult) idx g)
       = Ok objID
    /\ _inRealm pt (recompute_realms g).2 = true
    /\ labels pastFrame !! j = Some cat
    /\ midPoints pastFrame !! j = Some oldPt
    /\ fst (resolve_id (IDs pastFrame) (labels pastFrame) j g) = Ok objID
    /\ tag_rejected pastFrame cat objID
         (resolve_numInCat detailedResult cat objID) = false
    /\ _inRealm oldPt (recompute_realms g).1 = true.
Proof.
  intros g'. subst g'.
  destruct (after_update_counts_only img detailedResult g)
    as (g1 & Hpro & Heq & Hframe).
  destruct (update_prologue_run img detailedResult g)
    as (g1' & Hpro' & _ & Hrealms & _ & Hrest).
  assert (g1' = g1) as -> by congruence.
  rewrite Heq.
  destruct (update_loop_cases detailedResult (midPoints detailedResult) 0 g1)
    as [-> | (k & pt & gi & Hk & Hgi & Hconf)].
  { left. by rewrite Hrest. }
  right.
  destruct Hconf as (cat & objID & Hcat & Hmon & Hid & Hout & Hin).
  destruct (_hasIn pt cat objID _ gi) as [r gh] eqn:Hh. simpl in Hin.
  apply hasIn_outcome in Hh
    as [(_ & pf & j & old & Hpf & Hlab & Hold & Hpid & Htag & Hrin & _)
       | [Hno _]]; [| done].
  rewrite Hgi in Hmon, Hout, Hpf, Hrin. simpl in Hmon, Hout, Hpf, Hrin.
  exists g1, pf, k, j, cat, objID, pt, old.
  rewrite <- Hrealms. simpl.
  rewrite (resolve_id_any _ _ _ g gi), (resolve_id_any _ _ j g gi).
  rewrite Hrest in Hmon. simpl in Hmon.
  by repeat split.
Qed.

End Crossings.



Section Quiet.
Context `{Backend}.

(** X2: the first call on a gate whose history is empty counts nothing:
    there is no previous frame to match, and the [IndexError] of
    [self.history[-2]] is caught. *)
Theorem first_call_counts_nothing (g : hitBar) (call : Img * frame) :
  history g = [] ->
  let g' := after_update g call in
  Accumulator g' = Accumulator g /\ direction g' = direction g
  /\ stdout g' = stdout g.
Proof.
  intros Hempty g'. destruct call as [img detailedResult].
  destruct (after_update_cases img detailedResult g) as [Hsame | Hcross];
    [done |].
  destruct Hcross as (g1 & pf & idx & j & cat & o & pt & old & Hpro & Hpf & _).
  apply (prologue_past _ _ _ _ _ Hpro) in Hpf as [Hlast _].
  by rewrite Hempty in Hlast.
Qed.

Lemma short_history_step (g : hitBar) call :
  maxLength g <= 1 -> (length (history g) <= 1)%nat ->
  let g' := after_update g call in
  (length (history g') <= 1)%nat /\ maxLength g' = maxLength g
  /\ Accumulator g' = Accumulator g /\ direction g' = direction g
  /\ stdout g' = stdout g.
Proof.
  intros Hmax Hlen g'. subst g'.
  destruct (after_update_history g call) as [Hhist Hsame].
  assert (Hshort : (length (history (after_update g call)) <= 1)%nat).
  { rewrite Hhist. simpl. rewrite length_app. simpl.
    destruct (Z.gtb_spec (Z.of_nat (length (history g) + 1)) (maxLength g));
      rewrite ?length_drop, length_app; simpl; lia. }
  do 2 (split; [done |]).
  destruct call as [img detailedResult].
  destruct (after_update_cases img detailedResult g) as [Hquiet | Hcross];
    [done |].
  destruct Hcross as (g1 & pf & idx & j & cat & o & pt & old & Hpro & Hpf & _).
  destruct (prologue_past _ _ _ _ _ Hpro Hpf) as [_ Htwo].
  destruct (after_update_counts_only img detailedResult g)
    as (g1' & Hpro' & _ & Hframe).
  assert (g1' = g1) as -> by congruence.
  rewrite Hframe in Hshort. simpl in Hshort. lia.
Qed.

(** X3: a gate with [maxLength <= 1] never counts.  Its history never holds
    two frames, so [_hasIn] never finds a previous frame: whatever the
    stream of calls, no counter changes, the direction stays and nothing is
    printed. *)
Theorem short_history_never_counts (g : hitBar) (calls : list (Img * frame)) :
  maxLength g <= 1 -> (length (history g) <= 1)%nat ->
  Accumulator (run g calls) = Accumulator g
  /\ direction (run g calls) = direction g
  /\ stdout (run g calls) = stdout g.
Proof.
  revert g. induction calls as [| call rest IH]; intros g Hmax Hlen; [done |].
  destruct (short_history_step g call Hmax Hlen)
    as (Hlen1 & Hmax1 & Ha & Hd & Ho).
  destruct (IH (after_update g call)) as (Ha2 & Hd2 & Ho2);
    [by rewrite Hmax1 | done |].
  unfold run in *. simpl. repeat split; congruence.
Qed.

(** X4: a frame none of whose labels is monitored changes no counter, no
    direction and prints nothing. *)
Theorem unmonitored_frame_counts_nothing (g : hitBar) (img : Img)
    (detailedResult : frame) :
  Forall (fun cat => cat ∉ monitoredCatagories g) (labels detailedResult) ->
  let g' := after_update g (img, detailedResult) in
  Accumulator g' = Accumulator g /\ direction g' = direction g
  /\ stdout g' = stdout g.
Proof.
  intros Hnone g'.
  destruct (after_update_cases img detailedResult g) as [Hsame | Hcross];
    [done |].
  destruct Hcross as (g1 & pf & idx & j & cat & o & pt & old & _ & _ & Hcat
                      & _ & Hmon & _).
  apply list_elem_of_lookup_2 in Hcat.
  by apply (proj1 (Forall_forall _ _) Hnone) in Hcat.
Qed.


End Quiet.

Lemma first_call_counts_nothing_witness :
  let g := Demo.bar 50 in
  let call := (Demo.grey 1 1, Demo.balls [Demo.Q2 400 320]) in
  history g = []
  /\ Accumulator (after_update g call) = Accumulator g
  /\ direction (after_update g call) = direction g
  /\ stdout (after_update g call) = stdout g.
Proof.
  intros g call.
  assert (Hempty : history g = []) by reflexivity.
  split; [exact Hempty |].
  exact (first_call_counts_nothing g call Hempty).
Defined.

Lemma short_history_never_counts_witness :
  let g := Demo.bar 1 in
  let img := Demo.grey 1 1 in
  let calls := [(img, Demo.balls [Demo.Q2 400 280]);
                (img, Demo.balls [Demo.Q2 400 320])] in
  maxLength g <= 1 /\ (length (history g) <= 1)%nat
  /\ Accumulator (run g calls) = Accumulator g
  /\ direction (run g calls) = direction g
  /\ stdout (run g calls) = stdout g.
Proof.
  intros g img calls.
  assert (Hmax : maxLength g <= 1) by (vm_compute; discriminate).
  assert (Hlen : (length (history g) <= 1)%nat) by (vm_compute; lia).
  do 2 (split; [assumption |]).
  exact (short_history_never_counts g calls Hmax Hlen).
Defined.

Lemma unmonitored_frame_counts_nothing_witness :
  let img := Demo.grey 1 1 in
  let past :=
    {| labels := ["cat"]; IDs := [0]; midPoints := [Demo.Q2 400 280];
       numProjection := None |} in
  let detailedResult :=
    {| labels := ["cat"]; IDs := [0]; midPoints := [Demo.Q2 400 320];
       numProjection := None |} in
  let g := run (Demo.bar 50) [(img, past)] in
  Forall (fun cat => cat ∉ monitoredCatagories g) (labels detailedResult)
  /\ Accumulator (after_update g (img, detailedResult)) = Accumulator g
  /\ direction (after_update g (img, detailedResult)) = direction g
  /\ stdout (after_update g (img, detailedResult)) = stdout g.
Proof.
  intros img past detailedResult g.
  assert (Hnone : Forall (fun cat => cat ∉ monitoredCatagories g)
                    (labels detailedResult)).
  { apply (bool_decide_unpack _). vm_compute. exact I. }
  split; [exact Hnone |].
  exact (unmonitored_frame_counts_nothing g img detailedResult Hnone).
Defined.


(** ** Counters and printed lines *)

Section Counters.
Context `{Backend}.

Lemma printed_for_app cat (out1 out2 : list log_line) :
  printed_for cat (out1 ++ out2) = printed_for cat out1 + printed_for cat out2.
Proof. unfold printed_for. rewrite filter_app, length_app. lia. Qed.

Lemma fmap_add_0 (x : option Z) : (fun c => c + 0) <$> x = x.
Proof. destruct x; simpl; [f_equal; lia | done]. Qed.

Lemma update_body_printed detailedResult idx pt (g : hitBar) :
  let g' := snd (update_body detailedResult idx pt g) in
  exists out,
    stdout g' = stdout g ++ out
    /\ forall cat,
         Accumulator g' !! cat
         = (fun c => c + printed_for cat out) <$> (Accumulator g !! cat).
Proof.
  simpl.
  destruct (update_body detailedResult idx pt g) as [r g'] eqn:Hrun.
  apply update_body_cases in Hrun
    as [(_ & cat0 & o & pf & j & old & _ & _ & _ & Hacc) | [_ ->]]; simpl.
  2: { exists []. rewrite app_nil_r. split; [done |].
       intros cat. by rewrite fmap_add_0. }
  simpl in Hacc. destruct (Accumulator g !! cat0) as [c |] eqn:Hc;
    destruct Hacc as [_ ->]; simpl.
  2: { exists []. rewrite app_nil_r. split; [done |].
       intros cat. by rewrite fmap_add_0. }
  eexists [_]. split; [done |]. intros cat. unfold printed_for.
  destruct (decide (cat0 = cat)) as [<- | Hne].
  - rewrite lookup_insert_eq, Hc, filter_cons_True by done. done.
  - rewrite lookup_insert_ne, filter_cons_False by done.
    simpl. by rewrite fmap_add_0.
Qed.

Lemma update_loop_printed detailedResult pts : forall idx (g : hitBar),
  let g' := snd (update_loop detailedResult idx pts g) in
  exists out,
    stdout g' = stdout g ++ out
    /\ forall cat,
         Accumulator g' !! cat
         = (fun c => c + printed_for cat out) <$> (Accumulator g !! cat).
Proof.
  induction pts as [| pt rest IH]; intros idx g; simpl.
  { exists []. rewrite app_nil_r. split; [done |].
    intros cat. by rewrite fmap_add_0. }
  unfold bind.
  destruct (update_body_printed detailedResult idx pt g)
    as (out1 & Hout1 & Hacc1).
  destruct (update_body detailedResult idx pt g) as [[[] | e] g1];
    simpl in *; [| by exists out1].
  destruct (IH (S idx) g1) as (out2 & Hout2 & Hacc2). simpl in *.
  exists (out1 ++ out2). split; [by rewrite Hout2, Hout1, app_assoc |].
  intros cat. rewrite Hacc2, Hacc1, printed_for_app.
  destruct (Accumulator g !! cat); simpl; [f_equal; lia | done].
Qed.

(** X6: the counters move with the output.  A call of [update] only
    appends to what was printed, and the counter of each category has grown
    by the number of lines the call printed for that category; a category
    without a counter still has none. *)
Theorem counters_follow_output (g : hitBar) (call : Img * frame) :
  let g' := after_update g call in
  exists out,
    stdout g' = stdout g ++ out
    /\ forall cat,
         Accumulator g' !! cat
         = (fun c => c + printed_for cat out) <$> (Accumulator g !! cat).
Proof.
  destruct call as [img detailedResult]. intros g'. subst g'.
  destruct (after_update_counts_only img detailedResult g)
    as (g1 & Hpro & Heq & _).
  destruct (update_prologue_run img detailedResult g)
    as (g1' & Hpro' & _ & _ & _ & Hrest).
  assert (g1' = g1) as -> by congruence.
  destruct (update_loop_printed detailedResult (midPoints detailedResult)
              0 g1) as (out & Hout & Hacc).
  exists out. simpl in Hout, Hacc. rewrite Heq, Hout.
  split; [by rewrite Hrest |]. intros cat. rewrite Hacc. by rewrite Hrest.
Qed.

Lemma after_update_monotone (g : hitBar) call cat :
  match Accumulator g !! cat, Accumulator (after_update g call) !! cat with
  | Some c, Some c' => c <= c'
  | None, None => True
  | _, _ => False
  end.
Proof.
  destruct call as [img detailedResult].
  destruct (after_update_counts_only img detailedResult g)
    as (g1' & Hpro & Heq & _).
  destruct (update_prologue_run img detailedResult g)
    as (g1'' & Hpro' & _ & _ & _ & Hrest).
  assert (g1'' = g1') as -> by congruence.
  destruct (update_loop_printed detailedResult (midPoints detailedResult)
              0 g1') as (out & _ & Hacc).
  simpl in Hacc. rewrite Heq, Hacc, Hrest. simpl.
  destruct (Accumulator g !! cat); simpl; [| done].
  unfold printed_for. lia.
Qed.

Lemma run_monotone (calls : list (Img * frame)) (cat : string) (g : hitBar) :
  match Accumulator g !! cat, Accumulator (run g calls) !! cat with
  | Some c, Some c' => c <= c'
  | None, None => True
  | _, _ => False
  end.
Proof.
  revert g. induction calls as [| call rest IH]; intros g.
  { simpl. by destruct (Accumulator g !! cat). }
  pose proof (after_update_monotone g call cat) as Hstep.
  pose proof (IH (after_update g call)) as Hrest.
  unfold run in *. simpl.
  destruct (Accumulator g !! cat), (Accumulator (after_update g call) !! cat),
    (Accumulator (fold_left after_update rest (after_update g call)) !! cat);
    try done; lia.
Qed.

(** X7: the accumulator is monotone.  Over any stream of calls of [update],
    returning or raising, no counter is created or deleted and no counter
    decreases. *)
Theorem accumulator_monotone (g : hitBar) (calls : list (Img * frame))
    (cat : string) :
  match Accumulator g !! cat, Accumulator (run g calls) !! cat with
  | Some c, Some c' => c <= c'
  | None, None => True
  | _, _ => False
  end.
Proof. apply run_monotone. Qed.

Lemma run_dom (calls : list (Img * frame)) (g : hitBar) :
  dom (Accumulator (run g calls)) = dom (Accumulator g).
Proof.
  apply set_eq. intros cat. rewrite !elem_of_dom.
  pose proof (run_monotone calls cat g) as Hcat.
  destruct (Accumulator g !! cat), (Accumulator (run g calls) !! cat);
    try done; split; intros [? ?]; eauto; done.
Qed.

Lemma run_configuration (calls : list (Img * frame)) : forall g : hitBar,
  name (run g calls) = name g /\ visualize (run g calls) = visualize g
  /\ imgSize (run g calls) = imgSize g
  /\ startPoint (run g calls) = startPoint g
  /\ endPoint (run g calls) = endPoint g
  /\ maxLength (run g calls) = maxLength g
  /\ width (run g calls) = width g
  /\ monitoredCatagories (run g calls) = monitoredCatagories g.
Proof.
  induction calls as [| [img detailedResult] rest IH]; intros g; [done |].
  destruct (after_update_counts_only img detailedResult g)
    as (g1 & Hpro & _ & Hframe).
  destruct (update_prologue_run img detailedResult g)
    as (g1' & Hpro' & _ & _ & _ & Hrest).
  assert (g1' = g1) as -> by congruence.
  set (g2 := after_update g (img, detailedResult)) in *.
  assert (Hstep : name g2 = name g /\ visualize g2 = visualize g
            /\ imgSize g2 = imgSize g /\ startPoint g2 = startPoint g
            /\ endPoint g2 = endPoint g /\ maxLength g2 = maxLength g
            /\ width g2 = width g
            /\ monitoredCatagories g2 = monitoredCatagories g).
  { rewrite Hframe. simpl. by rewrite Hrest. }
  destruct Hstep as (? & ? & ? & ? & ? & ? & ? & ?).
  destruct (IH g2) as (? & ? & ? & ? & ? & ? & ? & ?).
  unfold run in *. simpl. fold g2. repeat split; congruence.
Qed.

(** X8: [update] only reads the configuration.  Over any stream of calls
    the name, the switch [visualize], the reference size, the two endpoints,
    [maxLength], the width and the monitored set are what they were. *)
Theorem update_keeps_configuration (g : hitBar)
    (calls : list (Img * frame)) :
  name (run g calls) = name g /\ visualize (run g calls) = visualize g
  /\ imgSize (run g calls) = imgSize g
  /\ startPoint (run g calls) = startPoint g
  /\ endPoint (run g calls) = endPoint g
  /\ maxLength (run g calls) = maxLength g
  /\ width (run g calls) = width g
  /\ monitoredCatagories (run g calls) = monitoredCatagories g.
Proof. apply run_configuration. Qed.

(** X9: the constructor leaves a gate whose counters are exactly those of
    its monitored categories, each at 0, with an empty history. *)
Theorem constructor_keys_match imgSize s e name monitor width maxLength
    visualize :
  match __init__ imgSize s e name monitor width maxLength visualize with
  | Raise _ => True
  | Ok g0 =>
      keys_match g0 /\ history g0 = [] /\ stdout g0 = []
      /\ (forall cat c, Accumulator g0 !! cat = Some c -> c = 0)
  end.
Proof.
  assert (Hmon : forall (cs : list string) (g : hitBar),
            Accumulator g = ∅ -> monitoredCatagories g = ∅ ->
            keys_match (_monitor cs g)
            /\ forall cat c,
                 Accumulator (_monitor cs g) !! cat = Some c -> c = 0).
  { intros cs g Ha Hm. split.
    - unfold keys_match, _monitor. simpl. rewrite Hm, Ha.
      apply set_eq. intros cat.
      rewrite elem_of_dom, monitor_loop_lookup, lookup_empty.
      rewrite elem_of_union, elem_of_list_to_set.
      case_bool_decide as Hin; split.
      + by right.
      + by eauto.
      + by intros [? ?].
      + intros [Hx | Hx]; [by apply elem_of_empty in Hx | done].
    - intros cat c. unfold _monitor. simpl.
      rewrite monitor_loop_lookup, Ha, lookup_empty.
      case_bool_decide; [by intros [= <-] | done]. }
  assert (Hnone : forall g : hitBar,
            Accumulator g = ∅ -> monitoredCatagories g = ∅ ->
            keys_match g
            /\ forall cat c, Accumulator g !! cat = Some c -> c = 0).
  { intros g Ha Hm. split.
    - unfold keys_match. by rewrite Ha, Hm, dom_empty_L.
    - intros cat c. by rewrite Ha, lookup_empty. }
  unfold __init__.
  destruct s as [s |], e as [e |], imgSize as [[h w] |]; simpl; try done;
    destruct (Qltb _ _); destruct monitor as [[| c cs] |];
    match goal with
    | |- keys_match (_monitor ?cs ?g) /\ _ =>
        destruct (Hmon cs g eq_refl eq_refl) as [? ?]
    | |- keys_match ?g /\ _ =>
        destruct (Hnone g eq_refl eq_refl) as [? ?]
    end; by repeat split.
Qed.

(** X10: that agreement is kept.  On a gate whose counters are those of its
    monitored categories, [_monitor] and any stream of calls of [update]
    leave a gate of which the same holds. *)
Theorem keys_match_kept (g : hitBar) (categories : list string)
    (calls : list (Img * frame)) :
  keys_match g ->
  keys_match (_monitor categories g) /\ keys_match (run g calls).
Proof.
  unfold keys_match. intros Hkeys. split.
  - unfold _monitor. simpl. rewrite <- Hkeys. apply set_eq. intros cat.
    rewrite elem_of_union, elem_of_list_to_set, !elem_of_dom.
    rewrite monitor_loop_lookup.
    destruct (Accumulator g !! cat) as [c |] eqn:Hc.
    + split; [by left | eauto].
    + case_bool_decide as Hin; split.
      * by right.
      * by eauto.
      * by intros [? ?].
      * intros [[? ?] | ?]; done.
  - rewrite run_dom.
    by destruct (run_configuration calls g) as (_ & _ & _ & _ & _ & _ & _ & ->).
Qed.

End Counters.

Lemma keys_match_kept_witness :
  let g := Demo.bar 50 in
  let calls := [(Demo.grey 1 1, Demo.balls [Demo.Q2 400 280]);
                (Demo.grey 1 1, Demo.balls [Demo.Q2 400 320])] in
  keys_match g
  /\ keys_match (_monitor ["car"; "ball"] g) /\ keys_match (run g calls).
Proof.
  intros g calls.
  assert (Hkeys : keys_match g).
  { apply (bool_decide_unpack _). vm_compute. exact I. }
  split; [exact Hkeys |].
  exact (keys_match_kept g ["car"; "ball"] calls Hkeys).
Defined.

(** ** The exceptions of [update] *)

Section Raising.
Context `{Backend}.

Ltac unmonad :=
  unfold bind, ret, raise, self, assign, subscript in *; simpl in *.

Lemma resolve_id_raises ids labs i (g : hitBar) e g' :
  resolve_id ids labs i g = (Raise e, g') -> e = IndexError.
Proof.
  unfold resolve_id. case_bool_decide; unmonad; [| done].
  destruct (ids !! i); unmonad; congruence.
Qed.

Lemma hasIn_loop_raises pt cat objID numInCat pastFrame labs :
  forall i (g : hitBar) e g',
  hasIn_loop pt cat objID numInCat pastFrame i labs g = (Raise e, g') ->
  e = IndexError.
Proof.
  induction labs as [| lb rest IH]; intros i g e g' Hrun; [done |].
  simpl in Hrun. case_bool_decide; [| by eapply IH].
  unfold bind at 1 in Hrun.
  destruct (resolve_id _ _ i g) as [[checkID | e0] g1] eqn:Hid.
  2: { injection Hrun as <- _. by eapply resolve_id_raises. }
  case_bool_decide; [| by eapply IH].
  destruct (tag_rejected _ _ _ _); [by eapply IH |].
  unmonad. destruct (midPoints pastFrame !! i) as [oldPt |]; unmonad;
    [| congruence].
  destruct (_inRealm oldPt (realmIn g1)); [done | by eapply IH].
Qed.

Lemma hasIn_raises pt cat objID numInCat (g : hitBar) e g' :
  _hasIn pt cat objID numInCat g = (Raise e, g') -> e = IndexError.
Proof.
  unfold _hasIn. unmonad.
  destruct (py_index (history g) (-2)); [| done].
  case_bool_decide; [| done]. apply hasIn_loop_raises.
Qed.

Lemma update_body_raises detailedResult idx pt (g : hitBar) e g' :
  counters_present g ->
  update_body detailedResult idx pt g = (Raise e, g') -> e = IndexError.
Proof.
  intros Hpresent. unfold update_body. unfold bind at 1. unfold subscript.
  destruct (labels detailedResult !! idx) as [cat |]; unmonad;
    [| congruence].
  case_bool_decide as Hmon; [| done].
  destruct (resolve_id _ _ idx g) as [[objID | e0] g1] eqn:Hid.
  2: { intros [= <- _]. by eapply resolve_id_raises. }
  pose proof (resolve_id_pure (IDs detailedResult) (labels detailedResult)
                idx g) as Hpure.
  rewrite Hid in Hpure. simpl in Hpure. subst g1.
  destruct (_inRealm pt (realmOut g)); [| done].
  destruct (_hasIn pt cat objID _ g) as [[[|] | e0] gh] eqn:Hh.
  - apply hasIn_outcome in Hh
      as [(_ & pf & j & old & _ & _ & _ & _ & _ & _ & ->) | [? _]];
      [| done].
    destruct (counters_present_lookup g cat Hpresent Hmon) as [c Hc].
    unfold Accumulator_incr. unmonad. by rewrite Hc.
  - done.
  - intros [= <- _]. by eapply hasIn_raises.
Qed.

Lemma update_body_counters_present detailedResult idx pt (g : hitBar) :
  counters_present g ->
  counters_present (snd (update_body detailedResult idx pt g)).
Proof.
  intros Hpresent.
  destruct (update_body detailedResult idx pt g) as [r g'] eqn:Hrun.
  apply update_body_cases in Hrun as [[_ Hcase] | [_ ->]]; [| done].
  destruct Hcase as (cat & o & pf & j & old & _ & _ & _ & Hacc).
  simpl in *. destruct (Accumulator g !! cat); destruct Hacc as [_ ->];
    [| done].
  unfold counters_present in *. simpl. rewrite dom_insert_L.
  intros x Hx. apply elem_of_union. right. by apply Hpresent.
Qed.

Lemma update_loop_raises detailedResult pts : forall idx (g : hitBar) e g',
  counters_present g ->
  update_loop detailedResult idx pts g = (Raise e, g') -> e = IndexError.
Proof.
  induction pts as [| pt rest IH]; intros idx g e g' Hpresent; [done |].
  simpl. unfold bind.
  pose proof (update_body_counters_present detailedResult idx pt g Hpresent)
    as Hpresent1.
  destruct (update_body detailedResult idx pt g) as [[[] | e0] g1] eqn:Hbody.
  - by apply IH.
  - intros [= <- _].
    eapply update_body_raises; [exact Hpresent | exact Hbody].
Qed.


Lemma run_take_S (g : hitBar) call (rest : list (Img * frame)) k :
  run g (take (S k) (call :: rest)) = run (after_update g call) (take k rest).
Proof. done. Qed.

Lemma run_returns (calls : list (Img * frame)) : forall (g : hitBar) k call,
  counters_present g -> Forall aligned (history g) ->
  Forall aligned calls.*2 ->
  calls !! k = Some call ->
  exists out,
    update call.1 call.2 (run g (take k calls))
    = (Ok (out, Accumulator (run g (take (S k) calls))),
       run g (take (S k) calls)).
Proof.
  induction calls as [| [img dr] rest IH];
    intros g k call Hpresent Hhist Hall Hk; [done |].
  apply Forall_cons in Hall as [Hdr Hall]. simpl in Hdr.
  destruct (update_ok img dr g Hpresent Hhist Hdr)
    as (out & g' & Hrun & Hpresent' & Hhist').
  assert (Hafter : after_update g (img, dr) = g').
  { unfold after_update. simpl. by rewrite Hrun. }
  destruct k as [| k].
  - injection Hk as <-. exists out. simpl.
    unfold run. simpl. rewrite Hafter. exact Hrun.
  - rewrite !run_take_S, Hafter. by apply IH.
Qed.


End Raising.



(** ** One object across the bar *)

Section SingleCrossing.
Context `{Backend}.

Ltac unmonad :=
  unfold bind, ret, raise, self, assign, subscript in *; simpl in *.

Lemma prologue_keeps_past img detailedResult (g g1 : hitBar) pastFrame :
  update_prologue img detailedResult g = (Ok tt, g1) ->
  last (history g) = Some pastFrame -> 2 <= maxLength g ->
  py_index (history g1) (-2) = Some pastFrame.
Proof.
  intros Hpro Hlast Hmax.
  destruct (update_prologue_run img detailedResult g)
    as (g1' & Hpro' & Hhist & _).
  assert (g1' = g1) as -> by congruence.
  rewrite Hhist. simpl. rewrite last_lookup in Hlast.
  assert (Hlen : (1 <= length (history g))%nat).
  { apply lookup_lt_Some in Hlast. lia. }
  unfold py_index. rewrite length_app. simpl.
  destruct (Z.gtb_spec (Z.of_nat (length (history g) + 1)) (maxLength g));
    simpl.
  - rewrite length_drop, length_app. simpl.
    destruct (Z.leb_spec 0 (Z.of_nat (length (history g) + 1 - 1) + -2));
      [| lia].
    rewrite lookup_drop, lookup_app_l by lia.
    rewrite <- Hlast. f_equal. lia.
  - rewrite length_app. simpl.
    destruct (Z.leb_spec 0 (Z.of_nat (length (history g) + 1) + -2));
      [| lia].
    rewrite lookup_app_l by lia.
    rewrite <- Hlast. f_equal. lia.
Qed.


End SingleCrossing.


(** ** [_monitor] in several calls *)

Lemma monitor_loop_app (a b : list string) : forall acc : gmap string Z,
  monitor_loop (a ++ b) acc = monitor_loop b (monitor_loop a acc).
Proof. induction a as [| c a IH]; intros acc; [done | apply IH]. Qed.

(** X14: monitoring composes.  One call of [_monitor] with the names of two
    lists leaves the gate as a call with the first followed by a call with
    the second does, in either order; a call with no name changes nothing. *)
Theorem monitor_composes `{Backend} (a b : list string) (g : hitBar) :
  _monitor (a ++ b) g = _monitor b (_monitor a g)
  /\ _monitor a (_monitor b g) = _monitor b (_monitor a g)
  /\ _monitor [] g = g.
Proof.
  split; [| split].
  - unfold _monitor, set_monitoredCatagories, set_Accumulator. simpl.
    rewrite monitor_loop_app, list_to_set_app_L. f_equal.
    by rewrite (assoc_L (∪)).
  - unfold _monitor, set_monitoredCatagories, set_Accumulator. simpl.
    f_equal.
    + apply map_eq. intros cat. rewrite !monitor_loop_lookup.
      destruct (Accumulator g !! cat); [done |].
      by repeat case_bool_decide.
    + rewrite <- !(assoc_L (∪)). f_equal. apply (comm_L (∪)).
  - unfold _monitor, set_monitoredCatagories, set_Accumulator. simpl.
    rewrite (right_id_L ∅ (∪)). by destruct g.
Qed.



(** ** The containment test on a rectangle with sides along the axes *)

Lemma edge_box_iff pt v0 v :
  (Qle_bool (py v0) (py pt) && Qle_bool (py v) (py pt))
  || (Qltb (py pt) (py v0) && Qltb (py pt) (py v))
  || (Qltb (px v0) (px pt) && Qltb (px v) (px pt)) = true
  <-> ((py v0 <= py pt)%Q /\ (py v <= py pt)%Q)
      \/ ((py pt < py v0)%Q /\ (py pt < py v)%Q)
      \/ ((px v0 < px pt)%Q /\ (px v < px pt)%Q).
Proof.
  rewrite !orb_true_iff, !andb_true_iff, !Qle_bool_iff, !Qltb_lt. tauto.
Qed.

Lemma edge_hit_iff pt v0 v :
  Qeq_bool (py pt) (py v)
  && (Qeq_bool (px pt) (px v)
      || (Qeq_bool (py pt) (py v0)
          && ((Qle_bool (px v0) (px pt) && Qle_bool (px pt) (px v))
              || (Qle_bool (px v) (px pt) && Qle_bool (px pt) (px v0)))))
  = true
  <-> (py pt == py v)%Q
      /\ ((px pt == px v)%Q
          \/ ((py pt == py v0)%Q /\ between (px v0) (px pt) (px v))).
Proof.
  unfold between.
  repeat (rewrite andb_true_iff || rewrite orb_true_iff).
  rewrite !Qeq_bool_iff, !Qle_bool_iff. tauto.
Qed.

(** An edge along the x axis: the point is on it, or the edge does not
    count. *)
Lemma edge_step_flat pt v0 v c :
  (py v0 == py v)%Q ->
  edge_step pt v0 v c =
    if decide ((py pt == py v)%Q /\ between (px v0) (px pt) (px v))
    then OnEdge else Next c.
Proof.
  intros Hflat. unfold edge_step.
  destruct (_ || _) eqn:Hbox.
  2: { exfalso. apply not_true_iff_false in Hbox. apply Hbox.
       apply edge_box_iff. lra. }
  destruct (Qeq_bool (py pt) (py v) && _) eqn:Hhit.
  - apply edge_hit_iff in Hhit. rewrite decide_True; [done |].
    unfold between in *. lra.
  - apply not_true_iff_false in Hhit. rewrite edge_hit_iff in Hhit.
    rewrite decide_False; [done |]. unfold between in *. lra.
Qed.

(** An edge along the y axis: the point is on it; or the point is to its
    left at a height the edge covers, bottom included and top excluded, and
    the edge counts for one crossing; or it does not count. *)
Lemma edge_step_upright pt v0 v c :
  (px v0 == px v)%Q -> ~ (py v0 == py v)%Q ->
  edge_step pt v0 v c =
    if decide ((px pt == px v)%Q
               /\ (straddled (py v0) (py pt) (py v) \/ (py pt == py v)%Q))
    then OnEdge
    else if decide ((px pt < px v)%Q /\ straddled (py v0) (py pt) (py v))
         then Next (c + 1) else Next c.
Proof.
  intros Hup Hne. unfold edge_step.
  destruct (_ || _) eqn:Hbox.
  - apply edge_box_iff in Hbox.
    destruct (Qeq_bool (py pt) (py v) && _) eqn:Hhit.
    + apply edge_hit_iff in Hhit. rewrite decide_True; [done |].
      unfold between, straddled in *. lra.
    + apply not_true_iff_false in Hhit. rewrite edge_hit_iff in Hhit.
      rewrite decide_False by (unfold between, straddled in *; lra).
      rewrite decide_False by (unfold between, straddled in *; lra).
      done.
  - apply not_true_iff_false in Hbox. rewrite edge_box_iff in Hbox.
    set (dist := ((py pt - py v0) * (px v - px v0)
                  - (px pt - px v0) * (py v - py v0))%Q).
    assert (Hdist : (dist == (px v - px pt) * (py v - py v0))%Q).
    { unfold dist. rewrite Hup. ring. }
    destruct (Qeq_bool dist 0) eqn:Hzero.
    + apply Qeq_bool_iff in Hzero. rewrite Hdist in Hzero.
      apply Qmult_integral in Hzero as [Hzero | Hzero]; [| lra].
      rewrite decide_True; [done |]. unfold straddled. lra.
    + apply Qeq_bool_ne in Hzero.
      assert (Hleft : (px pt < px v)%Q).
      { destruct (Qeq_dec (px pt) (px v)) as [Heq | Hneq]; [| lra].
        exfalso. apply Hzero. rewrite Hdist, Heq. ring. }
      rewrite decide_False by lra.
      rewrite decide_True by (unfold straddled; lra).
      destruct (Qltb (py v) (py v0)) eqn:Hdown; qbool.
      * assert (Hpos : (0 < (px v - px pt) * (py v0 - py v))%Q)
          by (apply Qmult_lt_0_compat; lra).
        replace (Qltb 0 (- dist)) with true; [done |].
        symmetry. apply Qltb_lt. rewrite Hdist. lra.
      * assert (Hpos : (0 < (px v - px pt) * (py v - py v0))%Q)
          by (apply Qmult_lt_0_compat; lra).
        replace (Qltb 0 dist) with true; [done |].
        symmetry. apply Qltb_lt. rewrite Hdist. lra.
Qed.

(** The test on the rectangle with the corners [(x0,y1)], [(x1,y1)],
    [(x1,y0)], [(x0,y0)], in this order: inside or on the boundary. *)
Lemma inRealm_rectangle pt c1 c2 c3 c4 (x0 x1 y0 y1 : Q) :
  pt_eq c1 (x0, y1) -> pt_eq c2 (x1, y1) ->
  pt_eq c3 (x1, y0) -> pt_eq c4 (x0, y0) ->
  (x0 < x1)%Q -> ~ (y0 == y1)%Q ->
  _inRealm pt [c1; c2; c3; c4] = true
  <-> (x0 <= px pt <= x1)%Q /\ between y0 (py pt) y1.
Proof.
  unfold pt_eq. simpl. intros [H1x H1y] [H2x H2y] [H3x H3y] [H4x H4y] Hx Hy.
  unfold _inRealm, pointPolygonTest. simpl.
  rewrite (edge_step_upright pt c4 c1) by lra.
  repeat case_decide; simpl;
    try (rewrite (edge_step_flat pt c1 c2) by lra;
         repeat case_decide; simpl);
    try (rewrite (edge_step_upright pt c2 c3) by lra;
         repeat case_decide; simpl);
    try (rewrite (edge_step_flat pt c3 c4) by lra;
         repeat case_decide; simpl);
    unfold between, straddled in *;
    (split; [intros Hgoal; try done; lra | intros Hgoal; try done; lra]).
Qed.

Section Horizontal.
Context `{Backend}.

Lemma horizontal_realms (g : hitBar) (call : Img * frame) (pt : Point2f) :
  (py (startPoint g) == py (endPoint g))%Q ->
  (px (startPoint g) < px (endPoint g))%Q ->
  (px (direction g) == 0)%Q ->
  ~ (width g * py (direction g) == 0)%Q ->
  let g' := after_update g call in
  let reach := (width g * py (direction g))%Q in
  (_inRealm pt (realmOut g') = true
   <-> (px (startPoint g) <= px pt <= px (endPoint g))%Q
       /\ between (py (startPoint g)) (py pt) (py (startPoint g) + reach))
  /\ (_inRealm pt (realmIn g') = true
      <-> (px (startPoint g) <= px pt <= px (endPoint g))%Q
          /\ between (py (startPoint g)) (py pt) (py (startPoint g) - reach)).
Proof.
  intros Hflat Hlong Hdx Hreach g' reach.
  destruct (after_update_realms g call) as (Hrealms & _).
  fold g' in Hrealms. unfold recompute_realms in Hrealms.
  injection Hrealms as -> ->.
  assert (Hwx : forall k : Q, (k * px (direction g) == 0)%Q).
  { intros k. rewrite Hdx. ring. }
  split.
  - apply inRealm_rectangle; unfold pt_eq, vadd, vscale, reach; simpl;
      rewrite ?Hwx; try split; try lra.
  - apply inRealm_rectangle; unfold pt_eq, vadd, vscale, reach; simpl;
      rewrite ?Hwx; try split; try lra.
Qed.


End Horizontal.




(** * The demo *)

Section MainLoop.
Context `{Backend}.

(** The ball moves away from the side it has just hit, and is at most one
    step beyond the margin that the radius leaves. *)
Lemma move_bouncing (b : Main.ball) :
  let inv := fun b : Main.ball =>
    ((Main.vel_x b = 5 /\ 10 <= Main.center_x b < 785)
     \/ (Main.vel_x b = -5 /\ 15 <= Main.center_x b < 790))
    /\ ((Main.vel_y b = 3 /\ 12 <= Main.center_y b < 585)
        \/ (Main.vel_y b = -3 /\ 15 <= Main.center_y b < 588)) in
  inv b -> inv (Main.move b).
Proof.
  simpl. unfold Main.move, Main.radius, Main.W, Main.H. simpl.
  intros [Hx Hy]. split.
  - destruct (Z.ltb_spec (Main.center_x b + Main.vel_x b - 15) 0),
      (Z.geb_spec (Main.center_x b + Main.vel_x b + 15) 800); simpl; lia.
  - destruct (Z.ltb_spec (Main.center_y b + Main.vel_y b - 15) 0),
      (Z.geb_spec (Main.center_y b + Main.vel_y b + 15) 600); simpl; lia.
Qed.

Lemma loop_outcome (bg : Img) (keys : list Z) :
  forall (b : Main.ball) (g : hitBar),
  let inv := fun b : Main.ball =>
    ((Main.vel_x b = 5 /\ 10 <= Main.center_x b < 785)
     \/ (Main.vel_x b = -5 /\ 15 <= Main.center_x b < 790))
    /\ ((Main.vel_y b = 3 /\ 12 <= Main.center_y b < 585)
        \/ (Main.vel_y b = -3 /\ 15 <= Main.center_y b < 588)) in
  inv b -> counters_present g -> Forall aligned (history g) ->
  exists b' g',
    Main.loop bg keys b g = (Ok tt, (b', g'))
    /\ inv b' /\ counters_present g' /\ Forall aligned (history g')
    /\ monitoredCatagories g' = monitoredCatagories g
    /\ dom (Accumulator g') = dom (Accumulator g).
Proof.
  induction keys as [| key keys IH]; intros b g inv Hb Hg Hh.
  { by exists b, g. }
  simpl.
  destruct (update_ok bg (Main.detectRes (Main.move b)) g Hg Hh eq_refl)
    as (out & g1 & Hrun & Hg1 & Hh1).
  rewrite Hrun.
  assert (Hb1 : inv (Main.move b)) by by apply move_bouncing.
  assert (Hg1eq : g1 = run g [(bg, Main.detectRes (Main.move b))]).
  { unfold run, after_update. simpl. by rewrite Hrun. }
  assert (Hmon1 : monitoredCatagories g1 = monitoredCatagories g).
  { rewrite Hg1eq.
    by destruct (run_configuration [(bg, Main.detectRes (Main.move b))] g)
      as (_ & _ & _ & _ & _ & _ & _ & ->). }
  assert (Hdom1 : dom (Accumulator g1) = dom (Accumulator g)).
  { rewrite Hg1eq. apply run_dom. }
  destruct (key =? Main.quit).
  - by exists (Main.move b), g1.
  - destruct (IH (Main.move b) g1 Hb1 Hg1 Hh1)
      as (b' & g' & Hloop & Hb' & Hg' & Hh' & Hmon' & Hdom').
    exists b', g'. rewrite Hloop.
    split; [done |]. split; [exact Hb' |].
    split; [done |]. split; [done |].
    split; [by rewrite Hmon' | by rewrite Hdom'].
Qed.

Lemma constructor_keys_none imgSize s e name thick maxLength visualize :
  match __init__ imgSize s e name None thick maxLength visualize with
  | Raise _ => True
  | Ok g0 => Accumulator g0 = ∅ /\ monitoredCatagories g0 = ∅
  end.
Proof.
  unfold __init__.
  destruct s as [s |], e as [e |], imgSize as [[h w] |]; simpl; try done;
    by destruct (Qltb _ _).
Qed.

(** X17: the ball of the demo stays in the picture.  Whatever keys are
    pressed, when the loop ends the centre of the ball is within the 800 by
    600 image, at 10 pixels or more from its left and right sides and 12 or
    more from its top and bottom, and the ball still moves 5 pixels a turn
    across and 3 down or up. *)
Theorem demo_ball_stays_in_picture (bg : Img) (keys : list Z) :
  match Main.main bg keys with
  | inl _ => False
  | inr (_, (b, _)) =>
      10 <= Main.center_x b < Main.W - 10
      /\ 12 <= Main.center_y b < Main.H - 12
      /\ Z.abs (Main.vel_x b) = 5 /\ Z.abs (Main.vel_y b) = 3
  end.
Proof.
  unfold Main.main, Main.hb.
  pose proof (init_outcome (Some (Main.H, Main.W))
                (Some (inject_Z 200, inject_Z 150))
                (Some (inject_Z 600, inject_Z 450)) "demoBar" None
                (inject_Z 50) 50 true) as Hinit.
  destruct (__init__ _ _ _ _ _ _ _ _) as [g0 | e].
  2: { by destruct Hinit as (_ & [=] & _). }
  destruct Hinit as (Hg0 & Hh0 & _).
  destruct (loop_outcome bg keys Main.start (_monitor ["ball"] g0))
    as (b & g & -> & Hb & _).
  { simpl. lia. }
  { by apply monitor_counters_present. }
  { simpl. rewrite Hh0. constructor. }
  unfold Main.W, Main.H. simpl in Hb. lia.
Qed.

(** X18: the demo never raises.  The constructor returns, every call of
    [update] in the loop returns, and when the loop ends the gate monitors
    ["ball"] alone, with a counter for it and for nothing else. *)
Theorem demo_never_raises (bg : Img) (keys : list Z) :
  exists b g,
    Main.main bg keys = inr (Ok tt, (b, g))
    /\ monitoredCatagories g = {[ "ball" ]}
    /\ dom (Accumulator g) = {[ "ball" ]}.
Proof.
  unfold Main.main, Main.hb.
  pose proof (init_outcome (Some (Main.H, Main.W))
                (Some (inject_Z 200, inject_Z 150))
                (Some (inject_Z 600, inject_Z 450)) "demoBar" None
                (inject_Z 50) 50 true) as Hinit.
  pose proof (constructor_keys_none (Some (Main.H, Main.W))
                (Some (inject_Z 200, inject_Z 150))
                (Some (inject_Z 600, inject_Z 450)) "demoBar"
                (inject_Z 50) 50 true) as Hkeys.
  destruct (__init__ _ _ _ _ _ _ _ _) as [g0 | e].
  2: { by destruct Hinit as (_ & [=] & _). }
  destruct Hinit as (Hg0 & Hh0 & _). destruct Hkeys as [Ha0 Hm0].
  destruct (loop_outcome bg keys Main.start (_monitor ["ball"] g0))
    as (b & g & Hloop & _ & _ & _ & Hmon & Hdom).
  { simpl. lia. }
  { by apply monitor_counters_present. }
  { simpl. rewrite Hh0. constructor. }
  exists b, g. rewrite Hloop. split; [done |].
  rewrite Hmon, Hdom. unfold _monitor. simpl. rewrite Hm0, Ha0.
  split; [by rewrite (left_id_L ∅ (∪)), (right_id_L ∅ (∪)) |].
  rewrite bool_decide_eq_false_2 by (rewrite dom_empty_L; set_solver).
  by rewrite dom_insert_L, dom_empty_L, (right_id_L ∅ (∪)).
Qed.

End MainLoop.
